(** * Botshi: stream sessions, tag timing, exports and credential storage

    A shallow embedding of the TypeScript sources

    - [src/twitch-api.ts]        (the [TwitchBot], [Stream], time helpers),
    - [src/commands/tagstwitch.ts], [src/commands/tagssrt.ts] (the exports),
    - the credential client ([TokenEncryption], [FileTokenStorage],
      [TwitchApiClient]),

    followed by the properties of the specification that were checked
    against it.

    Modelling conventions.
    - A [Date] is its [getTime()] value: milliseconds since the epoch, in [Z].
      [new Date(d).getTime()] is the identity on it, whether [d] is a [Date]
      or the ISO string that [JSON.parse] gives back for a stored [Date].
    - A JS [number] that holds a count of seconds or milliseconds is a [Z].
    - A durable JSON file is modelled by the value it stores
      ([JSON.parse (JSON.stringify v)] is [v] for the records used here);
      a file system is a finite map from paths to such values.
    - A JS string is a Rocq [string] that holds the bytes of its UTF-8 form;
      a surrogate code unit that is not half of a pair, which UTF-8 proper
      has no form for, is held as the three bytes its value would get as a
      code point ([ED A0..BF 80..BF]). A [Buffer] is a [list byte]. The
      ['utf8'] conversions between both are [utf8Encode] and [utf8Decode],
      which replace what is not well formed by U+FFFD as the runtime does.
    - What the environment decides (the clock, whether a write succeeds, the
      answer of a remote service, the random bytes drawn) is an explicit
      argument of the function that observes it. *)

From Stdlib Require Import ZArith String Ascii List Lia Bool Sorted.
From stdpp Require Import base numbers strings pretty option list gmap.

Open Scope Z_scope.

(* ================================================================== *)
(** * Part I. The program                                              *)
(* ================================================================== *)

(** ** Strings of the JS runtime *)

(** The line feed of the template strings. *)
Definition nl : string := String (ascii_of_nat 10) EmptyString.

(** [Number.prototype.toString()] on an integer: decimal digits, a leading
    minus sign for negative values. *)
Definition toString (n : Z) : string := pretty n.

(** [String.prototype.padStart(targetLength, padString)] for a pad string of
    one character: the string is returned as it is when it is long enough,
    and is otherwise filled on the left up to [targetLength]. *)
Definition padStart (targetLength : nat) (padChar : ascii) (s : string) : string :=
  string_of_list_ascii (replicate (targetLength - String.length s)%nat padChar) +:+ s.

(** [Array.prototype.join(sep)]. *)
Definition join (sep : string) (parts : list string) : string :=
  String.concat sep parts.

(** An array inside a template string, [`${arr}`], is [arr.join(",")]. *)
Definition arrayToString (parts : list string) : string := join "," parts.

(** ** Time-offset calculator ([twitch-api.ts], [tagssrt.ts]) *)

(** [getTimeDifference(date1, date2, delay)]:
    [new Date(date1).getTime() - new Date(date2).getTime() - delay * 1000]. *)
Definition getTimeDifference (date1 date2 : Z) (delay : Z) : Z :=
  date1 - date2 - delay * 1000.

(** The three numbers both renderers print. [Math.floor (x / k)] is [`div`]
    (rounding down), JS [%] is [`rem`] (sign of the dividend). *)
Definition hoursOf (timeDiffMs : Z) : Z := timeDiffMs `div` 3600000.
Definition minutesOf (timeDiffMs : Z) : Z := (timeDiffMs `rem` 3600000) `div` 60000.
Definition secondsOf (timeDiffMs : Z) : Z := (timeDiffMs `rem` 60000) `div` 1000.

(** [formatRelativeTime]: the deep-link rendering. *)
Definition formatRelativeTime (timeDiffMs : Z) : string :=
  let hours := hoursOf timeDiffMs in
  let minutes := minutesOf timeDiffMs in
  let seconds := secondsOf timeDiffMs in
  let hoursStr := toString hours in
  let minutesStr := toString minutes in
  let secondsStr := toString seconds in
  hoursStr +:+ "h" +:+ minutesStr +:+ "m" +:+ secondsStr +:+ "s".

(** [formatRelativeTimeWithPadding]: the subtitle rendering. *)
Definition formatRelativeTimeWithPadding (timeDiffMs : Z) : string :=
  let hours := hoursOf timeDiffMs in
  let minutes := minutesOf timeDiffMs in
  let seconds := secondsOf timeDiffMs in
  let hoursStr := padStart 2 "0" (toString hours) in
  let minutesStr := padStart 2 "0" (toString minutes) in
  let secondsStr := padStart 2 "0" (toString seconds) in
  hoursStr +:+ ":" +:+ minutesStr +:+ ":" +:+ secondsStr.

(** ** Sessions and tags ([twitch-api.ts]) *)

(** [interface StreamTag]. A tag read back from an older durable record may
    lack [relativeTimestamp]; a tag made by the [tag] command always has it. *)
Record StreamTag : Type := mkStreamTag {
  timestamp : Z;
  relativeTime : string;
  relativeTimestamp : option Z;
  moderator : string;
  message : string
}.

(** [class Stream]. *)
Record Stream : Type := mkStream {
  id : string;
  startTime : Z;
  delay : Z;
  vodDelay : Z;
  tags : list StreamTag
}.

(** The constructor of [Stream]; it stores [delay] in [vodDelay] too. *)
Definition newStream (id0 : string) (startTime0 : Z) (delay0 vodDelay0 : Z)
    (tags0 : list StreamTag) : Stream :=
  {| id := id0; startTime := startTime0; delay := delay0;
     vodDelay := delay0; tags := tags0 |}.

(** The per-session durable records, by path. *)
Abbreviation Files := (gmap string Stream).

(** [`./tags.${id}.json`]. *)
Definition tagsPath (id0 : string) : string := "./tags." +:+ id0 +:+ ".json".

(** How a promise settles. *)
Inductive Settled : Type := Fulfilled | Rejected.

(** What a handler lets the outside see, in the order it happens: a chat
    reply, an error given to [warnError], a promise that was rejected with
    nobody waiting for it. *)
Inductive Effect : Type :=
| ChatReply (text : string)
| WarnError (text : string)
| UnhandledRejection (what : string).

(** A promise that is neither awaited nor given a handler: nothing happens
    when it is fulfilled, and its rejection is unhandled. A [try] block
    around the call does not see the rejection. *)
Definition dropPromise (what : string) (p : Settled) : list Effect :=
  match p with
  | Fulfilled => []
  | Rejected => [UnhandledRejection what]
  end.

(** The default of the runtime for an unhandled rejection: it is raised as
    an uncaught exception, and the process ends. *)
Definition endsProcess (effects : list Effect) : bool :=
  existsb (fun eff => match eff with UnhandledRejection _ => true | _ => false end) effects.

(** [fs.writeFile path (JSON.stringify stream)]: the whole record is
    replaced when the write goes through ([writeOk]); the promise is rejected
    when it does not. *)
Definition writeFile (path : string) (s : Stream) (writeOk : bool) (fs : Files)
    : Files * Settled :=
  if writeOk then (<[path := s]> fs, Fulfilled) else (fs, Rejected).

(** [saveStream]: [fs.writeFile] is called inside [try], and its promise is
    dropped. *)
Definition saveStream (s : Stream) (writeOk : bool) (fs : Files) : Files * list Effect :=
  let '(fs', written) := writeFile (tagsPath (id s)) s writeOk fs in
  (fs', dropPromise (tagsPath (id s)) written).

(** [loadStream]: the record, or [null] when the file cannot be read. *)
Definition loadStream (id0 : string) (fs : Files) : option Stream :=
  fs !! tagsPath id0.

(** [getStoredStreamOrNew]. *)
Definition getStoredStreamOrNew (globalDelay : Z) (id0 : string) (startDate : Z)
    (fs : Files) : Stream :=
  match loadStream id0 fs with
  | Some storedStream => storedStream
  | None => newStream id0 startDate globalDelay 0 []
  end.

(** The part of the process the session engine works on: the [stream]
    field of [TwitchBot] and the durable records. *)
Record World : Type := mkWorld {
  stream : option Stream;
  files : Files
}.

(** A stream event of the provider: [event.id], [event.startDate]. *)
Record StreamOnlineEvent : Type := mkOnline {
  event_id : string;
  event_startDate : Z
}.

(** The stream found at start-up by [getStreamByUserName], if the
    broadcaster is live. *)
Definition initializeBot_stream (globalDelay : Z) (currentStream : option StreamOnlineEvent)
    (w : World) : World :=
  match currentStream with
  | Some cur =>
      {| stream := Some (getStoredStreamOrNew globalDelay (event_id cur)
                           (event_startDate cur) (files w));
         files := files w |}
  | None => w
  end.

(** The [onStreamOnline] handler of [setupEventSubscriptions]; the write
    is made as in [saveStream]. *)
Definition onStreamOnline (globalDelay : Z) (event : StreamOnlineEvent) (writeOk : bool)
    (w : World) : World * list Effect :=
  let s := newStream (event_id event) (event_startDate event) globalDelay 0 [] in
  let '(fs', written) := writeFile (tagsPath (id s)) s writeOk (files w) in
  ({| stream := Some s; files := fs' |}, dropPromise (tagsPath (id s)) written).

(** The [onStreamOffline] handler. *)
Definition onStreamOffline (w : World) : World :=
  {| stream := None; files := files w |}.

(** The handler of the [tag] chat command. [now] is [new Date()],
    [userName] is [msg.userInfo.userName], [params] the words after the
    command. The reply is sent before the write settles. *)
Definition tagCommand (globalDelay : Z) (now : Z) (userName : string)
    (params : list string) (writeOk : bool) (w : World) : World * list Effect :=
  match stream w with
  | None =>
      (w, [WarnError "New tag attempted but there is no stream";
           ChatReply "Error: No hay stream"])
  | Some s =>
      let timeDiff := getTimeDifference now (startTime s) globalDelay in
      let relativeTime0 := formatRelativeTime timeDiff in
      let tag := {| timestamp := now;
                    relativeTime := relativeTime0;
                    relativeTimestamp := Some timeDiff;
                    moderator := userName;
                    message := join " " params |} in
      let s' := {| id := id s; startTime := startTime s; delay := delay s;
                   vodDelay := vodDelay s; tags := tags s ++ [tag] |} in
      let '(fs', unhandled) := saveStream s' writeOk (files w) in
      ({| stream := Some s'; files := fs' |},
       ChatReply ("Se ha creado el tag en el minuto " +:+ relativeTime0) :: unhandled)
  end.

(** [getTags], [getActiveStream]. *)
Definition getTags (w : World) : list StreamTag :=
  match stream w with Some s => tags s | None => [] end.

Definition getActiveStream (w : World) : option Stream := stream w.

(** ** Exports ([commands/tagstwitch.ts], [commands/tagssrt.ts]) *)

(** The fields of a [HelixVideo] the commands read. [streamId] is [null]
    for a recording that belongs to no stream. *)
Record HelixVideo : Type := mkVideo {
  video_id : string;
  url : string;
  streamId : option string
}.

(** What a slash command answers: a text, or a file attachment. *)
Inductive InteractionReply : Type :=
| ReplyText (content : string)
| ReplyFile (name : string) (content : string).

(** [!s] on a string: the empty string is falsy. *)
Definition emptyString (s : string) : bool :=
  match s with EmptyString => true | _ => false end.

(** [!vod.streamId]: [null] and the empty string are falsy. *)
Definition noStreamId (v : HelixVideo) : bool :=
  match streamId v with
  | None => true
  | Some sid => emptyString sid
  end.

(** [!tag.relativeTimestamp]: [undefined] and [0] are falsy. *)
Definition falsyNumber (n : option Z) : bool :=
  match n with
  | None => true
  | Some v => v =? 0
  end.

(** [arr.map((x, index) => f x index)]. *)
Fixpoint mapIndexed {A B : Type} (f : A -> nat -> B) (index : nat) (l : list A) : list B :=
  match l with
  | [] => []
  | x :: rest => f x index :: mapIndexed f (S index) rest
  end.

Module tagstwitch.

(** One line of the deep-link list. *)
Definition mapTag (v : HelixVideo) (tag : StreamTag) (index : nat) : string :=
  toString (Z.of_nat index + 1) +:+ " - [`" +:+ relativeTime tag +:+ "`](<" +:+ url v
    +:+ "?t=" +:+ relativeTime tag +:+ ">) : " +:+ message tag +:+ nl.

(** [execute]: [getTwitchVodFromId] is the lookup of the provider, [fs]
    the durable records. *)
Definition execute (getTwitchVodFromId : string -> option HelixVideo) (fs : Files)
    (vodid : string) : InteractionReply :=
  if emptyString vodid then ReplyText "Tienes que incluir el id del vod!" else
  match getTwitchVodFromId vodid with
  | None => ReplyText "Ese vod no existe"
  | Some vod =>
      if noStreamId vod then ReplyText "Ese vod no pertenece a un stream." else
      match loadStream (default "" (streamId vod)) fs with
      | None => ReplyText "No se encontraron tags para ese vod."
      | Some s =>
          let mappedTags := mapIndexed (mapTag vod) 0 (tags s) in
          ReplyText ("Tags del stream (" +:+ toString (Z.of_nat (length (tags s)))
                     +:+ "):" +:+ nl +:+ " > " +:+ arrayToString mappedTags)
      end
  end.

End tagstwitch.

Module tagssrt.

(** The body of the [map] callback up to the assignment: a tag whose
    [relativeTimestamp] is falsy gets one computed with a delay of [0]. *)
Definition backfill (s : Stream) (tag : StreamTag) : StreamTag :=
  if falsyNumber (relativeTimestamp tag) then
    {| timestamp := timestamp tag;
       relativeTime := relativeTime tag;
       relativeTimestamp := Some (getTimeDifference (timestamp tag) (startTime s) 0);
       moderator := moderator tag;
       message := message tag |}
  else tag.

(** [tag.relativeTimestamp] where a number is needed; a missing one cannot
    occur after [backfill]. *)
Definition offsetOf (tag : StreamTag) : Z := default 0 (relativeTimestamp tag).

(** One subtitle cue. *)
Definition mapTag (s : Stream) (tag : StreamTag) (index : nat) : string :=
  let tag' := backfill s tag in
  toString (Z.of_nat index + 1) +:+ nl
    +:+ formatRelativeTimeWithPadding (offsetOf tag') +:+ ",000 --> "
    +:+ formatRelativeTimeWithPadding (offsetOf tag' + 15000) +:+ ",000" +:+ nl
    +:+ message tag' +:+ nl +:+ nl.

Definition execute (getTwitchVodFromId : string -> option HelixVideo) (fs : Files)
    (vodid : string) : InteractionReply :=
  if emptyString vodid then ReplyText "Tienes que incluir el id del vod!" else
  match getTwitchVodFromId vodid with
  | None => ReplyText "Ese vod no existe"
  | Some vod =>
      if noStreamId vod then ReplyText "Ese vod no pertenece a un stream." else
      match loadStream (default "" (streamId vod)) fs with
      | None => ReplyText "No se encontraron tags para ese vod."
      | Some s =>
          if (length (tags s) =? 0)%nat then ReplyText "El stream no tiene tags." else
          let mappedTags := mapIndexed (mapTag s) 0 (tags s) in
          ReplyFile "tags.srt" (arrayToString mappedTags)
      end
  end.

End tagssrt.

(** ** Buffers, hex strings and [slice] *)

Abbreviation Buffer := (list Byte.byte).

#[export] Instance byte_eq_decision : EqDecision Byte.byte := Stdlib.Strings.Byte.byte_eq_dec.

(** One hex digit of [buf.toString('hex')] (lower case). *)
Definition hexDigit (n : N) : ascii :=
  match n with
  | 0 => "0" | 1 => "1" | 2 => "2" | 3 => "3" | 4 => "4" | 5 => "5"
  | 6 => "6" | 7 => "7" | 8 => "8" | 9 => "9" | 10 => "a" | 11 => "b"
  | 12 => "c" | 13 => "d" | 14 => "e" | _ => "f"
  end%N%char.

Definition hexOfByte (b : Byte.byte) : string :=
  String (hexDigit (Byte.to_N b / 16)) (String (hexDigit (Byte.to_N b mod 16)) EmptyString).

(** [buf.toString('hex')], and the ['hex'] output encoding of a cipher. *)
Fixpoint toHex (buf : Buffer) : string :=
  match buf with
  | [] => EmptyString
  | b :: rest => hexOfByte b +:+ toHex rest
  end.

(** The value of a hex digit; both cases are read. *)
Definition hexValue (c : ascii) : option N :=
  let n := N_of_ascii c in
  if (48 <=? n)%N && (n <=? 57)%N then Some (n - 48)%N
  else if (97 <=? n)%N && (n <=? 102)%N then Some (n - 87)%N
  else if (65 <=? n)%N && (n <=? 70)%N then Some (n - 55)%N
  else None.

(** [Buffer.from(s, 'hex')]: pairs of hex digits are decoded until the
    first pair that is not one. *)
Fixpoint fromHex (s : string) : Buffer :=
  match s with
  | String c1 (String c2 rest) =>
      match hexValue c1, hexValue c2 with
      | Some hi, Some lo =>
          match Byte.of_N (hi * 16 + lo) with
          | Some b => b :: fromHex rest
          | None => []
          end
      | _, _ => []
      end
  | _ => []
  end.

(** A relative index of [slice]: a negative one counts from the end, and
    the result is clamped to the string. *)
Definition sliceIndex (len i : Z) : Z :=
  if i <? 0 then Z.max (len + i) 0 else Z.min i len.

(** [s.slice(start, end)]; [s.slice(start)] is [slice s start None]. *)
Definition slice (s : string) (start : Z) (end_ : option Z) : string :=
  let len := Z.of_nat (String.length s) in
  let from := sliceIndex len start in
  let to := match end_ with Some e => sliceIndex len e | None => len end in
  substring (Z.to_nat from) (Z.to_nat (to - from)) s.

(** ** The ['utf8'] encoding of the runtime *)

(** A byte of a string between two bounds. *)
Definition inRange (lower upper : N) (c : ascii) : bool :=
  (lower <=? N_of_ascii c)%N && (N_of_ascii c <=? upper)%N.

(** U+FFFD, the replacement character ([EF BF BD]), before [rest]. *)
Definition replacement (rest : string) : string :=
  String (ascii_of_N 239) (String (ascii_of_N 191) (String (ascii_of_N 189) rest)).

(** The three bytes that hold a surrogate code unit which is not half of a
    pair: U+D800..U+DFFF as [ED A0..BF 80..BF]. *)
Definition loneSurrogate (a b c : ascii) : bool :=
  (N_of_ascii a =? 237)%N && inRange 160 191 b && inRange 128 191 c.

(** [text.toWellFormed()]: every surrogate that is not half of a pair
    becomes U+FFFD. *)
Fixpoint toWellFormed (text : string) : string :=
  match text with
  | EmptyString => EmptyString
  | String a tail =>
      match tail with
      | String b (String c rest) =>
          if loneSurrogate a b c then replacement (toWellFormed rest)
          else String a (toWellFormed tail)
      | _ => String a (toWellFormed tail)
      end
  end.

(** What a string gives as ['utf8'] input of [cipher.update] and of
    [Buffer.from]: its UTF-8 bytes, with U+FFFD for every surrogate that is
    not half of a pair. *)
Definition utf8Encode (text : string) : Buffer :=
  list_byte_of_string (toWellFormed text).

(** For the first byte of a UTF-8 sequence: how many bytes follow it, and
    the bounds of the second byte (the Unicode Standard, table 3-7). [None]
    for a byte that starts no sequence. The bytes after the second are
    within [80..BF]. *)
Definition utf8Lead (a : ascii) : option (nat * N * N) :=
  let n := N_of_ascii a in
  if (n <=? 127)%N then Some (0%nat, 128%N, 191%N)
  else if (n <? 194)%N then None
  else if (n <=? 223)%N then Some (1%nat, 128%N, 191%N)
  else if (n =? 224)%N then Some (2%nat, 160%N, 191%N)
  else if (n =? 237)%N then Some (2%nat, 128%N, 159%N)
  else if (n <=? 239)%N then Some (2%nat, 128%N, 191%N)
  else if (n =? 240)%N then Some (3%nat, 144%N, 191%N)
  else if (n <=? 243)%N then Some (3%nat, 128%N, 191%N)
  else if (n =? 244)%N then Some (3%nat, 128%N, 143%N)
  else None.

(** The UTF-8 decoder of the runtime on a sequence of bytes: a sequence of
    table 3-7 is taken as it is; a byte that starts none, and a sequence cut
    short by a byte out of its bounds or by the end, give one U+FFFD, and
    decoding goes on at the byte that cut it short. *)
Fixpoint decodeUtf8 (bytes : string) : string :=
  match bytes with
  | EmptyString => EmptyString
  | String a t0 =>
      match utf8Lead a with
      | None => replacement (decodeUtf8 t0)
      | Some (O, _, _) => String a (decodeUtf8 t0)
      | Some (S more, lower, upper) =>
          match t0 with
          | EmptyString => replacement EmptyString
          | String b t1 =>
              if negb (inRange lower upper b) then replacement (decodeUtf8 t0)
              else
                match more with
                | O => String a (String b (decodeUtf8 t1))
                | S more' =>
                    match t1 with
                    | EmptyString => replacement EmptyString
                    | String c t2 =>
                        if negb (inRange 128 191 c) then replacement (decodeUtf8 t1)
                        else
                          match more' with
                          | O => String a (String b (String c (decodeUtf8 t2)))
                          | S _ =>
                              match t2 with
                              | EmptyString => replacement EmptyString
                              | String d t3 =>
                                  if negb (inRange 128 191 d)
                                  then replacement (decodeUtf8 t2)
                                  else String a (String b (String c (String d
                                         (decodeUtf8 t3))))
                              end
                          end
                    end
                end
          end
      end
  end.

(** What bytes give as ['utf8'] output of [decipher.update] and
    [decipher.final]. *)
Definition utf8Decode (plain : Buffer) : string :=
  decodeUtf8 (string_of_list_byte plain).

(** [text.isWellFormed()]: the string holds no surrogate that is not half
    of a pair, so that its bytes are UTF-8: one sequence of table 3-7 after
    the other. *)
Fixpoint isWellFormed (text : string) : bool :=
  match text with
  | EmptyString => true
  | String a t0 =>
      match utf8Lead a with
      | None => false
      | Some (O, _, _) => isWellFormed t0
      | Some (S more, lower, upper) =>
          match t0 with
          | EmptyString => false
          | String b t1 =>
              inRange lower upper b &&
              match more with
              | O => isWellFormed t1
              | S more' =>
                  match t1 with
                  | EmptyString => false
                  | String c t2 =>
                      inRange 128 191 c &&
                      match more' with
                      | O => isWellFormed t2
                      | S _ =>
                          match t2 with
                          | EmptyString => false
                          | String d t3 => inRange 128 191 d && isWellFormed t3
                          end
                      end
                  end
              end
          end
      end
  end.

(** ** The authenticated cipher of the runtime ([crypto]) *)

(** AES-256-GCM and the key derivation are the runtime's, not the
    repository's: the code is embedded over any cipher with this interface.
    [gcm_seal key iv plaintext] is the ciphertext and the authentication tag
    ([cipher.update]/[final] and [getAuthTag]); [gcm_open key iv ciphertext
    tag] is the plaintext, or [None] where [decipher.final] throws. *)
Class AeadCipher : Type := {
  aead_key : Type;
  scryptSync : string -> string -> nat -> aead_key;
  gcm_seal : aead_key -> Buffer -> Buffer -> Buffer * Buffer;
  gcm_open : aead_key -> Buffer -> Buffer -> Buffer -> option Buffer
}.

(** What the code relies on: opening what was sealed under the same key and
    IV gives the plaintext back, and a tag has 16 bytes. *)
Class AeadCorrect (C : AeadCipher) : Prop := {
  gcm_open_seal : forall key ivBytes plain,
    gcm_open key ivBytes (gcm_seal key ivBytes plain).1 (gcm_seal key ivBytes plain).2
    = Some plain;
  gcm_tag_length : forall key ivBytes plain,
    length (gcm_seal key ivBytes plain).2 = 16%nat
}.

(** [crypto.randomBytes]: the entropy source is a sequence of draws and a
    cursor into it; one call consumes one draw. *)
Record Entropy : Type := mkEntropy {
  pool : nat -> Buffer;
  cursor : nat
}.

Definition randomBytes (size : nat) (e : Entropy) : Buffer * Entropy :=
  (resize size Byte.x00 (pool e (cursor e)),
   {| pool := pool e; cursor := S (cursor e) |}).

(** The [k]-th draw of 16 bytes from now on. *)
Definition drawAt (e : Entropy) (k : nat) : Buffer :=
  resize 16 Byte.x00 (pool e (cursor e + k)%nat).

(** ** [class TokenEncryption] *)

Record Encrypted : Type := mkEncrypted {
  encrypted : string;
  encrypted_iv : string
}.

Section TokenEncryption.
Context {C : AeadCipher}.

(** The constructor: [crypto.scryptSync(encryptionKey, 'salt', 32)]. *)
Definition newTokenEncryption (encryptionKey : string) : aead_key :=
  scryptSync encryptionKey "salt" 32.

(** [encrypt], for the IV that [crypto.randomBytes(16)] drew. The cipher
    is given the ['utf8'] bytes of [text]. *)
Definition encryptWith (key : aead_key) (ivBytes : Buffer) (text : string) : Encrypted :=
  let sealed := gcm_seal key ivBytes (utf8Encode text) in
  let authTag := sealed.2 in
  {| encrypted := toHex sealed.1 +:+ toHex authTag;
     encrypted_iv := toHex ivBytes |}.

(** [encrypt(text)]. *)
Definition encrypt (key : aead_key) (text : string) (e : Entropy) : Encrypted * Entropy :=
  let '(ivBytes, e1) := randomBytes 16 e in
  (encryptWith key ivBytes text, e1).

(** [decrypt(encrypted, iv)]; [None] where it throws. The plaintext is
    read as ['utf8']. *)
Definition decrypt (key : aead_key) (encrypted0 iv0 : string) : option string :=
  let authTag := fromHex (slice encrypted0 (-32) None) in
  let encryptedText := slice encrypted0 0 (Some (-32)) in
  match gcm_open key (fromHex iv0) (fromHex encryptedText) authTag with
  | Some plain => Some (utf8Decode plain)
  | None => None
  end.

End TokenEncryption.

(** ** Token storage ([interface TokenStorage], [class FileTokenStorage]) *)

(** [interface EncryptedTokens]. *)
Module EncryptedTokens.

Record t : Type := mk {
  iv : string;
  accessToken : string;
  refreshToken : string;
  expiresAt : Z
}.

End EncryptedTokens.

Abbreviation EncryptedTokens := EncryptedTokens.t.

(** [interface TokenStorage] over a store: [save] gives the new store, or
    [None] when the promise is rejected; [load] gives the record or [null]. *)
Class TokenStorage (Store : Type) : Type := {
  save : EncryptedTokens -> Store -> option Store;
  load : Store -> option EncryptedTokens
}.

(** A store keeps what was last saved. *)
Class TokenStorageCorrect (Store : Type) {TS : TokenStorage Store} : Prop :=
  load_save : forall tokens s s', save tokens s = Some s' -> load s' = Some tokens.

(** [FileTokenStorage]: one file at [filePath] on a disk that may refuse
    the write. *)
Record FileStore : Type := mkFileStore {
  filePath : string;
  disk : gmap string EncryptedTokens;
  writable : bool
}.

#[export] Instance FileTokenStorage : TokenStorage FileStore := {|
  save tokens s :=
    if writable s
    then Some {| filePath := filePath s;
                 disk := <[filePath s := tokens]> (disk s);
                 writable := writable s |}
    else None;
  load s := disk s !! filePath s
|}.

(** ** [class TwitchApiClient] *)

(** [interface TokenResponse]. *)
Record TokenResponse : Type := mkTokenResponse {
  access_token : string;
  refresh_token : string;
  expires_in : Z
}.

(** A pending [setTimeout]: it fires [timer_interval] ms after
    [timer_armedAt]. *)
Record Timer : Type := mkTimer {
  timer_armedAt : Z;
  timer_interval : Z
}.

Definition firesAt (t : Timer) : Z := timer_armedAt t + timer_interval t.

(** What one run of [refreshToken] observes of its environment: the answer
    of the identity provider ([None]: the request failed or was not [ok]),
    whether the transport could be closed and reopened, and the clock when
    the record is written and when the timer is armed. *)
Record RefreshRun : Type := mkRefreshRun {
  response : option TokenResponse;
  disconnectOk : bool;
  connectOk : bool;
  clockAtSave : Z;
  clockAtSchedule : Z
}.

Module TwitchApiClient.

Section TwitchApiClient.
Context {C : AeadCipher} {Store : Type} {TS : TokenStorage Store}.

(** The fields of the client the credential code reads or writes.
    [clientToken] is the token the current [Chat] object was made with,
    [notifiedTokens] what the refresh handlers were called with,
    [reconnectTimers] the number of reconnects [handleDisconnect] armed. *)
Record Client : Type := mkClient {
  config_refreshToken : string;
  reconnectInterval : Z;
  tokenRefreshInterval : Z;
  tokenRefreshTimeout : option Timer;
  currentToken : string;
  tokenEncryption : aead_key;
  isConnected : bool;
  clientToken : string;
  notifiedTokens : list (string * string);
  reconnectTimers : nat
}.

Definition setTokens (access refresh : string) (c : Client) : Client :=
  {| config_refreshToken := refresh;
     reconnectInterval := reconnectInterval c;
     tokenRefreshInterval := tokenRefreshInterval c;
     tokenRefreshTimeout := tokenRefreshTimeout c;
     currentToken := access;
     tokenEncryption := tokenEncryption c;
     isConnected := isConnected c;
     clientToken := clientToken c;
     notifiedTokens := notifiedTokens c;
     reconnectTimers := reconnectTimers c |}.

Definition setTimer (t : option Timer) (c : Client) : Client :=
  {| config_refreshToken := config_refreshToken c;
     reconnectInterval := reconnectInterval c;
     tokenRefreshInterval := tokenRefreshInterval c;
     tokenRefreshTimeout := t;
     currentToken := currentToken c;
     tokenEncryption := tokenEncryption c;
     isConnected := isConnected c;
     clientToken := clientToken c;
     notifiedTokens := notifiedTokens c;
     reconnectTimers := reconnectTimers c |}.

Definition setEncryption (key : aead_key) (c : Client) : Client :=
  {| config_refreshToken := config_refreshToken c;
     reconnectInterval := reconnectInterval c;
     tokenRefreshInterval := tokenRefreshInterval c;
     tokenRefreshTimeout := tokenRefreshTimeout c;
     currentToken := currentToken c;
     tokenEncryption := key;
     isConnected := isConnected c;
     clientToken := clientToken c;
     notifiedTokens := notifiedTokens c;
     reconnectTimers := reconnectTimers c |}.

Definition setTransport (connected : bool) (token : string) (armed : nat)
    (notified : list (string * string)) (c : Client) : Client :=
  {| config_refreshToken := config_refreshToken c;
     reconnectInterval := reconnectInterval c;
     tokenRefreshInterval := tokenRefreshInterval c;
     tokenRefreshTimeout := tokenRefreshTimeout c;
     currentToken := currentToken c;
     tokenEncryption := tokenEncryption c;
     isConnected := connected;
     clientToken := token;
     notifiedTokens := notified;
     reconnectTimers := armed |}.

(** [saveTokens(accessToken, refreshToken, expiresIn)]. [expiresInMs] is
    the product [expiresIn * 1000] of the source. The stored [iv] is a draw
    of its own; each [encrypt] draws the IV it seals under. *)
Definition saveTokens (c : Client) (accessToken0 refreshToken0 : string)
    (expiresInMs : Z) (now : Z) (st : Store) (e : Entropy) : option Store * Entropy :=
  let '(ivBytes, e1) := randomBytes 16 e in
  let iv0 := toHex ivBytes in
  let '(encryptedAccess, e2) := encrypt (tokenEncryption c) accessToken0 e1 in
  let '(encryptedRefresh, e3) := encrypt (tokenEncryption c) refreshToken0 e2 in
  let tokens := {| EncryptedTokens.iv := iv0;
                   EncryptedTokens.accessToken := encrypted encryptedAccess;
                   EncryptedTokens.refreshToken := encrypted encryptedRefresh;
                   EncryptedTokens.expiresAt := now + expiresInMs |} in
  (save tokens st, e3).

(** [scheduleTokenRefresh(interval?)]: the pending timer is replaced. *)
Definition scheduleTokenRefresh (now : Z) (interval : option Z) (c : Client) : Client :=
  setTimer (Some {| timer_armedAt := now;
                    timer_interval := default (tokenRefreshInterval c) interval |}) c.

(** [handleDisconnect]. *)
Definition handleDisconnect (c : Client) : Client :=
  setTransport false (clientToken c) (S (reconnectTimers c)) (notifiedTokens c) c.

(** [connect]: a failure is caught and handled. *)
Definition connect (ok : bool) (c : Client) : Client :=
  if ok then setTransport true (clientToken c) (reconnectTimers c) (notifiedTokens c) c
  else handleDisconnect c.

(** [disconnect]: the refresh timer is cleared first; the flag says whether
    the call returned ([true]) or threw. *)
Definition disconnect (ok : bool) (c : Client) : Client * bool :=
  let c1 := setTimer None c in
  if ok then (setTransport false (clientToken c1) (reconnectTimers c1) (notifiedTokens c1) c1, true)
  else (c1, false).

(** [createClient]: a [Chat] for the current token. *)
Definition createClient (c : Client) : Client :=
  setTransport (isConnected c) (currentToken c) (reconnectTimers c) (notifiedTokens c) c.

(** [reconnectWithNewToken]. *)
Definition reconnectWithNewToken (run : RefreshRun) (c : Client) : Client :=
  let '(c1, returned) := disconnect (disconnectOk run) c in
  if returned then connect (connectOk run) (createClient c1)
  else handleDisconnect c1.

(** The [forEach] over [tokenRefreshHandlers]. *)
Definition notifyHandlers (access refresh : string) (c : Client) : Client :=
  setTransport (isConnected c) (clientToken c) (reconnectTimers c)
    (notifiedTokens c ++ [(access, refresh)]) c.

(** [refreshToken]. *)
Definition refreshToken (run : RefreshRun) (c : Client) (st : Store) (e : Entropy)
    : Client * Store * Entropy :=
  match response run with
  | None => (scheduleTokenRefresh (clockAtSchedule run) (Some 60000) c, st, e)
  | Some data =>
      let c1 := setTokens (access_token data) (refresh_token data) c in
      match saveTokens c1 (access_token data) (refresh_token data)
              (expires_in data * 1000) (clockAtSave run) st e with
      | (None, e') =>
          (scheduleTokenRefresh (clockAtSchedule run) (Some 60000) c1, st, e')
      | (Some st', e') =>
          let c2 := notifyHandlers (access_token data) (refresh_token data) c1 in
          let c3 := reconnectWithNewToken run c2 in
          let refreshIn := (expires_in data - 300) * 1000 in
          (scheduleTokenRefresh (clockAtSchedule run) (Some refreshIn) c3, st', e')
      end
  end.

(** [initializeTokens]; [now] is [Date.now()] at the expiry test. *)
Definition initializeTokens (now : Z) (run : RefreshRun) (c : Client) (st : Store)
    (e : Entropy) : Client * Store * Entropy :=
  match load st with
  | Some storedTokens =>
      match decrypt (tokenEncryption c) (EncryptedTokens.accessToken storedTokens)
              (EncryptedTokens.iv storedTokens) with
      | None => (c, st, e)
      | Some accessToken0 =>
          match decrypt (tokenEncryption c) (EncryptedTokens.refreshToken storedTokens)
                  (EncryptedTokens.iv storedTokens) with
          | None => (c, st, e)
          | Some refreshToken0 =>
              if now <? EncryptedTokens.expiresAt storedTokens
              then (setTokens accessToken0 refreshToken0 c, st, e)
              else refreshToken run c st e
          end
      end
  | None => (c, st, e)
  end.

(** The end of the constructor: [initializeTokens()], then [connect()] and
    [scheduleTokenRefresh()] with no interval. *)
Definition startUp (now : Z) (run : RefreshRun) (connected : bool) (clockAtStart : Z)
    (c : Client) (st : Store) (e : Entropy) : Client * Store * Entropy :=
  let '(c1, st1, e1) := initializeTokens now run c st e in
  (scheduleTokenRefresh clockAtStart None (connect connected c1), st1, e1).

(** [rotateEncryptionKey(newKey)]: the flag says whether the promise was
    fulfilled. [tokenRefreshInterval / 1000 * 1000] is [tokenRefreshInterval]. *)
Definition rotateEncryptionKey (newKey : string) (now : Z) (c : Client) (st : Store)
    (e : Entropy) : Client * Store * Entropy * bool :=
  let c1 := setEncryption (newTokenEncryption newKey) c in
  match saveTokens c1 (currentToken c1) (config_refreshToken c1)
          (tokenRefreshInterval c1) now st e with
  | (Some st', e') => (c1, st', e', true)
  | (None, e') => (c1, st, e', false)
  end.

End TwitchApiClient.

End TwitchApiClient.

Import TwitchApiClient.

(** ** The token file of [TwitchBot] ([twitch-api.ts]) *)

Module TwitchBot.

(** The [AccessToken] of the auth library, as [exchangeCode] and the
    refresh callback hand it over. *)
Record AccessToken : Type := mkAccessToken {
  accessToken : string;
  refreshToken : option string;
  scope : list string;
  expiresIn : option Z;
  obtainmentTimestamp : Z
}.

(** The content of [tokens.json], if the file exists. *)
Abbreviation TokenFile := (option AccessToken).

(** [saveTokens]: [JSON.stringify(tokenData)] is written; the error of a
    failed write is thrown again ([None]). *)
Definition saveTokens (tokenData : AccessToken) (writeOk : bool) (file : TokenFile)
    : option TokenFile :=
  if writeOk then Some (Some tokenData) else None.

(** [loadTokens]. *)
Definition loadTokens (file : TokenFile) : option AccessToken := file.

End TwitchBot.

(** ** The credential lifecycle as a whole *)

Section CredentialLifecycle.
Context {C : AeadCipher} {Store : Type} {TS : TokenStorage Store}.

(** The operations of the client that reach the store. *)
Inductive ClientOp : Type :=
| OpInitialize (now : Z) (run : RefreshRun)
| OpRefresh (run : RefreshRun)
| OpRotate (newKey : string) (now : Z).

Definition applyOp (x : Client * Store * Entropy) (op : ClientOp)
    : Client * Store * Entropy :=
  let '(c, st, e) := x in
  match op with
  | OpInitialize now run => initializeTokens now run c st e
  | OpRefresh run => refreshToken run c st e
  | OpRotate newKey now => (rotateEncryptionKey newKey now c st e).1
  end.

Definition applyOps (ops : list ClientOp) (x : Client * Store * Entropy)
    : Client * Store * Entropy :=
  fold_left applyOp ops x.

(** A field of a record is sealed when it is what [encrypt] returns for
    some text: the hex ciphertext followed by the hex tag. *)
Definition sealedField (field : string) : Prop :=
  exists (key : aead_key) (ivBytes : Buffer) (text : string),
    field = encrypted (encryptWith key ivBytes text).

Definition sealedRecord (r : EncryptedTokens) : Prop :=
  sealedField (EncryptedTokens.accessToken r)
  /\ sealedField (EncryptedTokens.refreshToken r).

(** Every record the store gives back is sealed. *)
Definition storeSealed (st : Store) : Prop :=
  forall r, load st = Some r -> sealedRecord r.

(** The same for the token file of [TwitchBot]. *)
Definition tokenFileSealed (file : TwitchBot.TokenFile) : Prop :=
  forall tokenData, TwitchBot.loadTokens file = Some tokenData ->
    sealedField (TwitchBot.accessToken tokenData)
    /\ forall refresh, TwitchBot.refreshToken tokenData = Some refresh -> sealedField refresh.

End CredentialLifecycle.

(** ** A stand-in cipher

    An instance of the cipher interface on which the code can be run. It
    is not a secure cipher: the ciphertext is the reversed plaintext, and
    the tag is a 16-byte function of the key, the IV and the ciphertext
    that [gcm_open] recomputes and compares. *)

Module StandIn.

Definition tagOf (key ivBytes ciphertext : Buffer) : Buffer :=
  resize 16 Byte.x00 (ivBytes ++ key ++ ciphertext).

Definition seal (key ivBytes plain : Buffer) : Buffer * Buffer :=
  (rev plain, tagOf key ivBytes (rev plain)).

Definition open (key ivBytes ciphertext authTag : Buffer) : option Buffer :=
  if decide (authTag = tagOf key ivBytes ciphertext) then Some (rev ciphertext) else None.

#[export] Instance cipher : AeadCipher := {|
  aead_key := Buffer;
  scryptSync password salt keylen :=
    resize keylen Byte.x00 (list_byte_of_string password ++ list_byte_of_string salt);
  gcm_seal := seal;
  gcm_open := open
|}.

End StandIn.

(** ** Sample inputs *)

Module Sample.

(** Draws that differ from one another: the [n]-th is 16 bytes of value
    [n + 1]. *)
Definition entropy : Entropy :=
  {| pool := fun n => replicate 16 (default Byte.x00 (Byte.of_nat (S n)));
     cursor := 0 |}.

(** An empty token file that takes writes. *)
Definition store : FileStore :=
  {| filePath := "./.tokens"; disk := ∅; writable := true |}.

(** A client as its constructor leaves it: the tokens of the
    configuration, the default intervals, the key derived from the
    configured secret. *)
Definition client : Client (C := StandIn.cipher) :=
  {| config_refreshToken := "initial-refresh";
     reconnectInterval := 5000;
     tokenRefreshInterval := 3600000;
     tokenRefreshTimeout := None;
     currentToken := "initial-access";
     tokenEncryption := newTokenEncryption (C := StandIn.cipher) "secret";
     isConnected := false;
     clientToken := "initial-access";
     notifiedTokens := [];
     reconnectTimers := 0 |}.

(** A refresh the provider answers with a new pair that lasts an hour. *)
Definition run : RefreshRun :=
  {| response := Some {| access_token := "new-access";
                         refresh_token := "new-refresh";
                         expires_in := 3600 |};
     disconnectOk := true;
     connectOk := true;
     clockAtSave := 1000000;
     clockAtSchedule := 1000500 |}.

(** A refresh the provider does not answer. *)
Definition failedRun : RefreshRun :=
  {| response := None; disconnectOk := true; connectOk := true;
     clockAtSave := 1000000; clockAtSchedule := 1000500 |}.

(** What the OAuth exchange hands to [TwitchBot.saveTokens]. *)
Definition tokenData : TwitchBot.AccessToken :=
  {| TwitchBot.accessToken := "plain-access";
     TwitchBot.refreshToken := Some "plain-refresh";
     TwitchBot.scope := ["chat:read"; "chat:edit"];
     TwitchBot.expiresIn := Some 14400;
     TwitchBot.obtainmentTimestamp := 1000000 |}.

End Sample.

(** ** Runs of chat commands *)

(** One [tag] command as the chat delivers it, with the outcome of its
    write. *)
Record TagRequest : Type := mkTagRequest {
  request_now : Z;
  request_userName : string;
  request_params : list string;
  request_writeOk : bool
}.

(** The tag the handler builds for a request during a session that started
    at [startTime0]. *)
Definition tagOfRequest (globalDelay : Z) (startTime0 : Z) (r : TagRequest) : StreamTag :=
  let timeDiff := getTimeDifference (request_now r) startTime0 globalDelay in
  {| timestamp := request_now r;
     relativeTime := formatRelativeTime timeDiff;
     relativeTimestamp := Some timeDiff;
     moderator := request_userName r;
     message := join " " (request_params r) |}.

(** The handler run on each request in turn; the effects add up. *)
Definition tagCommands (globalDelay : Z) (requests : list TagRequest) (w : World)
    : World * list Effect :=
  fold_left
    (fun (acc : World * list Effect) (r : TagRequest) =>
       let result := tagCommand globalDelay (request_now r) (request_userName r)
                       (request_params r) (request_writeOk r) acc.1 in
       (result.1, acc.2 ++ result.2))
    requests (w, []).

(** ** The [vip] and [unvip] chat commands ([twitch-api.ts]) *)

(** How a call of the chat API ends: it returns, it throws an [Error] with
    a message, or it throws something that is no [Error]. *)
Inductive ApiOutcome : Type :=
| ApiReturned
| ApiError (message : string)
| ApiThrown.

(** What a [vip] or [unvip] handler does, in order. *)
Inductive VipEffect : Type :=
| VipReply (text : string)
| AddVip (channel username : string)
| RemoveVip (channel username : string).

(** [s.replace(c, '')] for a pattern of one character: the first
    occurrence is removed. *)
Fixpoint removeFirst (c : ascii) (s : string) : string :=
  match s with
  | EmptyString => EmptyString
  | String a rest => if Ascii.eqb a c then rest else String a (removeFirst c rest)
  end.

(** [s.includes(sub)]. *)
Definition includes (s sub : string) : bool :=
  match index 0 sub s with Some _ => true | None => false end.

Definition modError : string := "Solo los moderadores pueden usar este comando.".

(** The handler of [vip]. [outcome] is how [addVip] ends if it is called.
    [this.bot] is the bot that runs the handler, so [this.bot?.addVip] is a
    call. *)
Definition vipCommand (broadcaster : string) (isMod isBroadcaster : bool)
    (params : list string) (outcome : ApiOutcome) : list VipEffect :=
  let isModerator := isMod || isBroadcaster in
  if negb isModerator then [VipReply modError] else
  match params with
  | [] => [VipReply "Especifica a quien hay que agregarle vip. Se usa asi: !vip nombre"]
  | first :: _ =>
      let username := removeFirst "@" first in
      AddVip broadcaster username ::
      match outcome with
      | ApiReturned => [VipReply ("Se le agregó VIP a @" +:+ username +:+ "!")]
      | ApiError message0 =>
          if includes message0 "already VIP"
          then [VipReply ("@" +:+ username +:+ " ya es VIP!")]
          else if includes message0 "not found"
          then [VipReply ("El usuario @" +:+ username +:+ " no existe.")]
          else [VipReply ("Error al agregarle VIP a @" +:+ username
                          +:+ ". Revisa el nombre de usuario y vuelvelo a intentar.")]
      | ApiThrown => []
      end
  end.

(** The handler of [unvip]. *)
Definition unvipCommand (broadcaster : string) (isMod isBroadcaster : bool)
    (params : list string) (outcome : ApiOutcome) : list VipEffect :=
  let isModerator := isMod || isBroadcaster in
  if negb isModerator then [VipReply modError] else
  match params with
  | [] => [VipReply "Especifica a quien hay que quitarle vip. Se usa así: !unvip nombre"]
  | first :: _ =>
      let username := removeFirst "@" first in
      RemoveVip broadcaster username ::
      match outcome with
      | ApiReturned => [VipReply ("Se le quitó VIP a @" +:+ username +:+ "!")]
      | ApiError message0 =>
          if includes message0 "already VIP"
          then [VipReply ("@" +:+ username +:+ " ya es VIP!")]
          else if includes message0 "not found"
          then [VipReply ("El usuario @" +:+ username +:+ " no existe.")]
          else [VipReply ("Error al quitarle VIP a @" +:+ username
                          +:+ ". Revisa el nombre de usuario y vuelvelo a intentar.")]
      | ApiThrown => []
      end
  end.

(** The texts a handler replied with, in order. *)
Definition vipReplies (effects : list VipEffect) : list string :=
  omap (fun e => match e with VipReply text => Some text | _ => None end) effects.

(** ** Mention moderation ([twitch-api.ts]) *)

(** The three lists of ids read from the configuration. *)
Record ModerationConfig : Type := mkModerationConfig {
  TARGET_USER_ROLES : list string;
  WHITELISTED_CHANNEL_IDS : list string;
  ALLOWED_ROLE_IDS : list string
}.

(** What [message.fetchReference()] gives: it throws, or it returns the
    message replied to, whose [member] may be [null]. *)
Inductive FetchedReference : Type :=
| FetchThrew
| Fetched (memberRoles : option (list string)).

(** The parts of a Discord [Message] the moderation reads: the roles of
    its author ([member] may be [null]), the roles of each mentioned member
    ([mentions.members] may be [null]), and the message it replies to. *)
Record DiscordMessage : Type := mkDiscordMessage {
  message_channelId : string;
  message_authorIsBot : bool;
  message_memberRoles : option (list string);
  message_mentions : option (list (list string));
  message_reference : option FetchedReference
}.

(** What the moderation does to a message, in order. *)
Inductive ModerationEffect : Type :=
| WarningReply (isReply : bool)
| ModLog
| DeleteMessage
| ModerationError.

(** [ids.includes(id)]. *)
Definition listIncludes (ids : list string) (x : string) : bool :=
  existsb (String.eqb x) ids.

(** [roles.cache.some(role => ids.includes(role.id))] on a member that may
    be [null]: [undefined || false] is [false]. *)
Definition someRoleIn (ids : list string) (roles : option (list string)) : bool :=
  match roles with
  | Some rs => existsb (listIncludes ids) rs
  | None => false
  end.

(** [hasAllowedRole]. *)
Definition hasAllowedRole (cfg : ModerationConfig) (m : DiscordMessage) : bool :=
  if (length (ALLOWED_ROLE_IDS cfg) =? 0)%nat then false
  else someRoleIn (ALLOWED_ROLE_IDS cfg) (message_memberRoles m).

(** [handleMaiMention]; [replyOk], [logOk] and [deleteOk] say whether the
    warning, the note to the moderators and the deletion went through. *)
Definition handleMaiMention (cfg : ModerationConfig) (m : DiscordMessage)
    (replyOk logOk deleteOk : bool) : list ModerationEffect :=
  let isInWhitelistedChannel :=
    listIncludes (WHITELISTED_CHANNEL_IDS cfg) (message_channelId m) in
  let hasExemptRole := hasAllowedRole cfg m in
  if negb isInWhitelistedChannel && negb hasExemptRole then
    let '(isReply, fetchError) :=
      match message_reference m with
      | None => (false, [])
      | Some FetchThrew => (false, [ModerationError])
      | Some (Fetched roles) => (someRoleIn (TARGET_USER_ROLES cfg) roles, [])
      end in
    fetchError ++
    (if negb replyOk then [ModerationError] else
     WarningReply isReply ::
     (if negb logOk then [ModerationError] else
      ModLog :: (if deleteOk then [DeleteMessage] else [ModerationError])))
  else [].

(** [checkIfForbiddenMention]. *)
Definition checkIfForbiddenMention (cfg : ModerationConfig) (m : DiscordMessage)
    (replyOk logOk deleteOk : bool) : list ModerationEffect :=
  let isMentioningTargetUsers :=
    match message_mentions m with
    | Some members => existsb (fun roles => someRoleIn (TARGET_USER_ROLES cfg) (Some roles)) members
    | None => false
    end in
  if isMentioningTargetUsers then handleMaiMention cfg m replyOk logOk deleteOk else [].

(** The moderation part of the [messageCreate] listener. *)
Definition onMessageCreate (cfg : ModerationConfig) (m : DiscordMessage)
    (replyOk logOk deleteOk : bool) : list ModerationEffect :=
  if message_authorIsBot m then [] else checkIfForbiddenMention cfg m replyOk logOk deleteOk.

(** ** Characters of a printed number *)

(** The characters [toString] can print: the digits and the minus sign. *)
Definition numeralChar (c : ascii) : bool :=
  existsb (Ascii.eqb c) (list_ascii_of_string "-0123456789").

(** All characters of a string are of that kind. *)
Definition numeral (s : string) : Prop :=
  Forall (fun c => numeralChar c = true) (list_ascii_of_string s).

(** ** What the operations of the credential client carry over *)

Section ClientInvariants.
Context {C : AeadCipher}.

(** The token pair the provider answered with in the run of an operation,
    if the operation has a run and the provider answered. *)
Definition issuedBy (op : ClientOp) : list (string * string) :=
  match op with
  | OpInitialize _ run | OpRefresh run =>
      match response run with
      | Some data => [(access_token data, refresh_token data)]
      | None => []
      end
  | OpRotate _ _ => []
  end.

(** Between a client and entropy source before ([c], [e]) and after
    ([c'], [e']) the operations [ops]: the configured intervals are the same,
    the handlers were told nothing but pairs issued in [ops], reconnects
    armed are not taken back, the entropy source only moved on, and the key
    is the same unless an operation rotated it. *)
Definition carriedOver (ops : list ClientOp) (c : Client) (e : Entropy)
    (c' : Client) (e' : Entropy) : Prop :=
  reconnectInterval c' = reconnectInterval c
  /\ tokenRefreshInterval c' = tokenRefreshInterval c
  /\ (exists more,
        notifiedTokens c' = notifiedTokens c ++ more
        /\ forall pair, In pair more -> exists op, In op ops /\ In pair (issuedBy op))
  /\ (reconnectTimers c <= reconnectTimers c')%nat
  /\ pool e' = pool e
  /\ (cursor e <= cursor e')%nat
  /\ ((forall newKey now, ~ In (OpRotate newKey now) ops) ->
      tokenEncryption c' = tokenEncryption c).

End ClientInvariants.

(** ** The chat script at the head of [twitch-api.ts] *)

(** [s.split(sep)] for a separator of one character. *)
Fixpoint splitOn (sep : ascii) (s : string) : list string :=
  match s with
  | EmptyString => [EmptyString]
  | String a rest =>
      if Ascii.eqb a sep then EmptyString :: splitOn sep rest
      else match splitOn sep rest with
           | first :: others => String a first :: others
           | [] => [String a EmptyString]
           end
  end.

Definition channel : string := "himiechan".

Definition approvedUsers : list string := ["himiechan"; "streamlootsbot"].

(** [chat.vip(channel, memberName)]; [None] is [undefined]. *)
Inductive ChatCall : Type :=
| ChatVip (channel0 : string) (memberName : option string).

(** [addVip(memberName)]. *)
Definition addVip (memberName : option string) : list ChatCall :=
  [ChatVip channel memberName].

(** The [PRIVMSG] listener: [params.at(0)] is [head params] and
    [params[1]] is [params !! 1]. *)
Definition onPrivmsg (chatUser chatMessage : string) : list ChatCall :=
  let params := splitOn " " chatMessage in
  let command := head params in
  if negb (listIncludes approvedUsers chatUser) then []
  else match command with
       | Some name =>
           if String.eqb name "!vip" then addVip (params !! 1%nat) else []
       | None => []
       end.

(** ** Characters of a hex string *)

(** The characters [toString('hex')] prints. *)
Definition hexChar (c : ascii) : bool :=
  existsb (Ascii.eqb c) (list_ascii_of_string "0123456789abcdef").

(** ** More sample inputs *)

Module Sample2.

(** Draws that are all the same. *)
Definition sameEntropy : Entropy :=
  {| pool := fun _ => replicate 16 Byte.x2a; cursor := 0 |}.

(** The string of one code unit, the surrogate U+D800, which has no
    partner: held as [ED A0 80]. *)
Definition unpaired : string :=
  String (ascii_of_N 237) (String (ascii_of_N 160) (String (ascii_of_N 128) EmptyString)).

(** A token file on a disk that refuses writes. *)
Definition readOnlyStore : FileStore :=
  {| filePath := "./.tokens"; disk := ∅; writable := false |}.

End Sample2.

(* ================================================================== *)
(** * Part II. Properties                                              *)
(* ================================================================== *)

(** ** The time-offset calculator *)

Section TimeOffset.

Lemma getTimeDifference_shift eventTime sessionStart delaySeconds a b d :
  getTimeDifference (eventTime + a) (sessionStart + b) (delaySeconds + d)
  = getTimeDifference eventTime sessionStart delaySeconds + a - b - d * 1000.
Proof. unfold getTimeDifference. lia. Qed.

Lemma getTimeDifference_negative eventTime sessionStart delaySeconds :
  getTimeDifference eventTime sessionStart delaySeconds < 0
  <-> eventTime < sessionStart + delaySeconds * 1000.
Proof. unfold getTimeDifference. lia. Qed.

(** C4. The elapsed duration is [eventTime - sessionStart - delaySeconds * 1000]
    milliseconds, with no clamping: it is negative exactly for an event
    before the compensated start. It is [0] for an event at the start with no
    delay, and strictly decreasing in the delay. *)
Theorem getTimeDifference_elapsed (eventTime sessionStart delaySeconds : Z) :
  getTimeDifference eventTime sessionStart delaySeconds
    = eventTime - sessionStart - delaySeconds * 1000
  /\ (eventTime < sessionStart + delaySeconds * 1000 ->
      getTimeDifference eventTime sessionStart delaySeconds < 0)
  /\ getTimeDifference sessionStart sessionStart 0 = 0
  /\ (forall delay', delaySeconds < delay' ->
      getTimeDifference eventTime sessionStart delay'
      < getTimeDifference eventTime sessionStart delaySeconds).
Proof.
  split; [reflexivity|].
  split; [apply getTimeDifference_negative|].
  split; [unfold getTimeDifference; lia|].
  intros delay' Hlt.
  replace delay' with (delaySeconds + (delay' - delaySeconds)) by lia.
  replace eventTime with (eventTime + 0) at 1 by lia.
  replace sessionStart with (sessionStart + 0) at 1 by lia.
  rewrite getTimeDifference_shift. nia.
Qed.

(** A tag 5 s after the start of a session with 15 s of delay: 10 s before
    the compensated start. *)
Lemma getTimeDifference_elapsed_witness :
  getTimeDifference 1005000 1000000 15 = -10000
  /\ getTimeDifference 1005000 1000000 15 < 0
  /\ getTimeDifference 1000000 1000000 0 = 0
  /\ getTimeDifference 1005000 1000000 16 < getTimeDifference 1005000 1000000 15.
Proof.
  destruct (getTimeDifference_elapsed 1005000 1000000 15) as (Heq & Hneg & Hzero & Hmono).
  split; [exact Heq|].
  split; [apply Hneg; lia|].
  split; [exact Hzero|].
  apply Hmono; lia.
Defined.

End TimeOffset.

(** ** Strings *)

Section Strings.

Lemma append_cons a (s t : string) : String a s +:+ t = String a (s +:+ t).
Proof. reflexivity. Qed.

Lemma length_append (s t : string) :
  String.length (s +:+ t) = (String.length s + String.length t)%nat.
Proof.
  induction s as [|a s IH]; [reflexivity|].
  rewrite append_cons. simpl. rewrite IH. reflexivity.
Qed.


Lemma substring_all (s : string) : substring 0 (String.length s) s = s.
Proof. induction s as [|a s IH]; [reflexivity|]. simpl. rewrite IH. reflexivity. Qed.

Lemma substring_prefix (s t : string) : substring 0 (String.length s) (s +:+ t) = s.
Proof.
  induction s as [|a s IH].
  - simpl. destruct t; reflexivity.
  - rewrite append_cons. simpl. rewrite IH. reflexivity.
Qed.

Lemma substring_suffix (s t : string) (m : nat) :
  substring (String.length s) m (s +:+ t) = substring 0 m t.
Proof.
  induction s as [|a s IH]; [reflexivity|].
  rewrite append_cons. simpl. exact IH.
Qed.


Lemma padStart_long n c (s : string) :
  (n <= String.length s)%nat -> padStart n c s = s.
Proof.
  intros Hlen. unfold padStart.
  replace (n - String.length s)%nat with 0%nat by lia. reflexivity.
Qed.


End Strings.

(** ** The two renderings of a duration *)

Section Renderings.

(** For a duration that is not negative, the three numbers are the usual
    split of the whole seconds into hours, minutes and seconds. *)
Lemma hms_split (timeDiffMs : Z) :
  0 <= timeDiffMs ->
  0 <= hoursOf timeDiffMs
  /\ 0 <= minutesOf timeDiffMs < 60
  /\ 0 <= secondsOf timeDiffMs < 60
  /\ hoursOf timeDiffMs * 3600 + minutesOf timeDiffMs * 60 + secondsOf timeDiffMs
     = timeDiffMs `div` 1000.
Proof.
  intros Hpos. unfold hoursOf, minutesOf, secondsOf.
  rewrite !Z.rem_mod_nonneg by lia.
  pose proof (Z.div_mod timeDiffMs 3600000 ltac:(lia)) as Hh.
  pose proof (Z.mod_pos_bound timeDiffMs 3600000 ltac:(lia)) as Hhb.
  pose proof (Z.div_mod timeDiffMs 60000 ltac:(lia)) as Hm.
  pose proof (Z.mod_pos_bound timeDiffMs 60000 ltac:(lia)) as Hmb.
  pose proof (Z.div_mod (timeDiffMs `mod` 3600000) 60000 ltac:(lia)) as Hm2.
  pose proof (Z.mod_pos_bound (timeDiffMs `mod` 3600000) 60000 ltac:(lia)) as Hm2b.
  pose proof (Z.div_mod (timeDiffMs `mod` 60000) 1000 ltac:(lia)) as Hs.
  pose proof (Z.mod_pos_bound (timeDiffMs `mod` 60000) 1000 ltac:(lia)) as Hsb.
  pose proof (Z.div_mod timeDiffMs 1000 ltac:(lia)) as Ht.
  pose proof (Z.mod_pos_bound timeDiffMs 1000 ltac:(lia)) as Htb.
  assert (0 <= timeDiffMs `div` 3600000) by (apply Z.div_pos; lia).
  assert (0 <= (timeDiffMs `mod` 3600000) `div` 60000 < 60)
    by (split; [apply Z.div_pos; lia | apply Z.div_lt_upper_bound; lia]).
  assert (0 <= (timeDiffMs `mod` 60000) `div` 1000 < 60)
    by (split; [apply Z.div_pos; lia | apply Z.div_lt_upper_bound; lia]).
  assert (0 <= timeDiffMs `div` 60000) by (apply Z.div_pos; lia).
  repeat split; try lia.
Qed.

(** A number below 100 is printed on two characters by the padded
    rendering: one pad character in front of a single digit, none
    otherwise. *)
Lemma padStart_two_digits (n : Z) :
  0 <= n < 100 ->
  padStart 2 "0" (toString n) = (if n <? 10 then "0" +:+ toString n else toString n)
  /\ String.length (padStart 2 "0" (toString n)) = 2%nat.
Proof.
  intros Hn.
  assert (Hall : forallb (fun k : nat =>
            let n := Z.of_nat k in
            (String.eqb (padStart 2 "0" (toString n))
               (if n <? 10 then "0" +:+ toString n else toString n))
            && Nat.eqb (String.length (padStart 2 "0" (toString n))) 2)
          (seq 0 100) = true) by (vm_compute; reflexivity).
  rewrite forallb_forall in Hall.
  specialize (Hall (Z.to_nat n)).
  rewrite Z2Nat.id in Hall by lia.
  assert (Hin : In (Z.to_nat n) (seq 0 100)) by (apply in_seq; lia).
  apply Hall in Hin. cbv zeta in Hin.
  apply andb_true_iff in Hin as [Heq Hlen].
  split; [apply String.eqb_eq, Heq | apply Nat.eqb_eq, Hlen].
Qed.



End Renderings.

(** ** Sessions: going live, tagging, flushing *)

Section Sessions.

Lemma loadStream_saveStream (s : Stream) (fs : Files) :
  loadStream (id s) (saveStream s true fs).1 = Some s.
Proof. unfold loadStream, saveStream, writeFile. cbn [fst]. apply lookup_insert_eq. Qed.

(** A write that fails leaves the records as they were; the failure does
    not reach [warnError], it is an unhandled rejection. *)
Lemma saveStream_failed (s : Stream) (fs : Files) :
  saveStream s false fs = (fs, [UnhandledRejection (tagsPath (id s))]).
Proof. reflexivity. Qed.

(** The start-up path resumes a stored session as it is, and makes a fresh
    one only when there is none. *)
Lemma getStoredStreamOrNew_spec globalDelay id0 startDate (fs : Files) :
  match loadStream id0 fs with
  | Some stored => getStoredStreamOrNew globalDelay id0 startDate fs = stored
  | None =>
      getStoredStreamOrNew globalDelay id0 startDate fs
      = {| id := id0; startTime := startDate; delay := globalDelay;
           vodDelay := globalDelay; tags := [] |}
  end.
Proof. unfold getStoredStreamOrNew. destruct (loadStream id0 fs); reflexivity. Qed.

(** The went-live handler never reads the durable records: the session it
    installs is the fresh one, whatever is stored. *)
Lemma onStreamOnline_fresh globalDelay event writeOk (w : World) :
  stream (onStreamOnline globalDelay event writeOk w).1
  = Some {| id := event_id event; startTime := event_startDate event;
            delay := globalDelay; vodDelay := globalDelay; tags := [] |}.
Proof. unfold onStreamOnline, writeFile. destruct writeOk; reflexivity. Qed.

(** C1, at a went-live signal for a session that has a durable record (one
    tag, started at 1000). The handler installs a fresh session with the
    start time of the signal and no tag, and replaces the record by it; the
    start-up path, on the same input, resumes the record. *)
Theorem onStreamOnline_discards_record :
  let tag := {| timestamp := 61000; relativeTime := "0h1m0s";
                relativeTimestamp := Some 60000; moderator := "mod";
                message := "clip" |} in
  let stored := {| id := "s1"; startTime := 1000; delay := 0; vodDelay := 0;
                   tags := [tag] |} in
  let w := {| stream := None; files := {[ tagsPath "s1" := stored ]} |} in
  let event := {| event_id := "s1"; event_startDate := 5000 |} in
  let fresh := {| id := "s1"; startTime := 5000; delay := 0; vodDelay := 0;
                  tags := [] |} in
  loadStream "s1" (files w) = Some stored
  /\ stream (onStreamOnline 0 event true w).1 = Some fresh
  /\ loadStream "s1" (files (onStreamOnline 0 event true w).1) = Some fresh
  /\ stream (initializeBot_stream 0 (Some event) w) = Some stored
  /\ fresh <> stored.
Proof.
  intros tag stored w event fresh.
  split; [reflexivity|]. split; [reflexivity|]. split; [reflexivity|].
  split; [reflexivity|]. discriminate.
Qed.

(** Without a session the command only answers: nothing is changed. *)
Lemma tagCommand_no_stream globalDelay now userName params writeOk (w : World) :
  stream w = None ->
  tagCommand globalDelay now userName params writeOk w
  = (w, [WarnError "New tag attempted but there is no stream";
         ChatReply "Error: No hay stream"]).
Proof. intros Hnone. unfold tagCommand. rewrite Hnone. reflexivity. Qed.

(** What the tag command does. Without an active session it answers with
    the no-stream error and changes neither the session nor the durable
    records. With one, the new tag carries the offset computed by
    [getTimeDifference] from the current time, the start time of the session
    and the configured delay; it is appended to the tags of the session,
    which is otherwise unchanged, and the command confirms. After a
    successful write the durable record is the session in memory. After a
    failed one the durable records are as before, the session in memory has
    the tag, and the rejection of the write is left unhandled. *)
Lemma tagCommand_spec (globalDelay now : Z) (userName : string)
    (params : list string) (writeOk : bool) (w : World) :
  let result := tagCommand globalDelay now userName params writeOk w in
  match stream w with
  | None =>
      result.1 = w
      /\ ChatReply "Error: No hay stream" ∈ result.2
      /\ endsProcess result.2 = false
  | Some s =>
      let offset := getTimeDifference now (startTime s) globalDelay in
      let tag := {| timestamp := now; relativeTime := formatRelativeTime offset;
                    relativeTimestamp := Some offset; moderator := userName;
                    message := join " " params |} in
      exists s',
        stream result.1 = Some s'
        /\ tags s' = tags s ++ [tag]
        /\ (id s', startTime s', delay s', vodDelay s')
           = (id s, startTime s, delay s, vodDelay s)
        /\ (if writeOk
            then loadStream (id s) (files result.1) = Some s'
            else files result.1 = files w)
        /\ result.2
           = ChatReply ("Se ha creado el tag en el minuto " +:+ formatRelativeTime offset)
             :: (if writeOk then [] else [UnhandledRejection (tagsPath (id s))])
        /\ endsProcess result.2 = negb writeOk
  end.
Proof.
  intros result. subst result. unfold tagCommand.
  destruct (stream w) as [s|] eqn:Hs.
  - cbv zeta. unfold saveStream, writeFile.
    destruct writeOk; cbn [fst snd dropPromise id].
    + eexists. split; [reflexivity|]. cbn [tags id startTime delay vodDelay files].
      split; [reflexivity|]. split; [reflexivity|].
      split; [apply lookup_insert_eq|]. split; reflexivity.
    + eexists. split; [reflexivity|]. cbn [tags id startTime delay vodDelay files].
      split; [reflexivity|]. split; [reflexivity|].
      split; [reflexivity|]. split; reflexivity.
  - cbn [fst snd]. split; [reflexivity|]. split; [|reflexivity].
    apply list_elem_of_In. simpl. tauto.
Qed.

(** C5, at a tag command during a session whose write fails. The tag is
    appended in memory and the command confirms, but the failure of the
    write is not caught: [warnError] is not reached, the rejection is
    unhandled, and by the default of the runtime that ends the process. *)
Theorem tagCommand_write_rejected :
  let s := {| id := "s1"; startTime := 1000000; delay := 15; vodDelay := 15;
              tags := [] |} in
  let w := {| stream := Some s; files := ∅ |} in
  let result := tagCommand 15 1100000 "mod" ["nice"; "clip"] false w in
  (tags <$> stream result.1)
    = Some [ {| timestamp := 1100000; relativeTime := "0h1m25s";
                relativeTimestamp := Some 85000; moderator := "mod";
                message := "nice clip" |} ]
  /\ files result.1 = ∅
  /\ result.2 = [ChatReply "Se ha creado el tag en el minuto 0h1m25s";
                 UnhandledRejection "./tags.s1.json"]
  /\ (forall text, WarnError text ∉ result.2)
  /\ endsProcess result.2 = true
  /\ endsProcess (tagCommand 15 1100000 "mod" ["nice"; "clip"] true w).2 = false.
Proof.
  intros s w result.
  split; [reflexivity|]. split; [reflexivity|]. split; [reflexivity|].
  split; [|split; reflexivity].
  intros text Hin. apply list_elem_of_In in Hin. simpl in Hin.
  destruct Hin as [Hin|[Hin|[]]]; discriminate.
Qed.

End Sessions.

(** ** Exports *)

Section Exports.

Variable getTwitchVodFromId : string -> option HelixVideo.

(** Both commands give the same answer when there is no durable record for
    the stream of the recording. *)
Lemma execute_no_record (fs : Files) (vodid : string) (vod : HelixVideo) (sid : string) :
  emptyString vodid = false ->
  getTwitchVodFromId vodid = Some vod ->
  streamId vod = Some sid ->
  emptyString sid = false ->
  loadStream sid fs = None ->
  tagstwitch.execute getTwitchVodFromId fs vodid
    = ReplyText "No se encontraron tags para ese vod."
  /\ tagssrt.execute getTwitchVodFromId fs vodid
    = ReplyText "No se encontraron tags para ese vod.".
Proof.
  intros Hid Hvod Hsid Hne Hload.
  unfold tagstwitch.execute, tagssrt.execute, noStreamId.
  rewrite Hid, Hvod, Hsid, Hne. simpl. rewrite Hload. split; reflexivity.
Qed.

(** For a record without tags the subtitle export answers that the stream
    has no tags; the deep-link export has no such test and answers with the
    heading of a list of [0] tags. *)
Lemma execute_no_tags (fs : Files) (vodid : string) (vod : HelixVideo) (sid : string)
    (s : Stream) :
  emptyString vodid = false ->
  getTwitchVodFromId vodid = Some vod ->
  streamId vod = Some sid ->
  emptyString sid = false ->
  loadStream sid fs = Some s ->
  tags s = [] ->
  tagssrt.execute getTwitchVodFromId fs vodid = ReplyText "El stream no tiene tags."
  /\ tagstwitch.execute getTwitchVodFromId fs vodid
     = ReplyText ("Tags del stream (0):" +:+ nl +:+ " > ").
Proof.
  intros Hid Hvod Hsid Hne Hload Htags.
  unfold tagstwitch.execute, tagssrt.execute, noStreamId.
  rewrite Hid, Hvod, Hsid, Hne. simpl. rewrite Hload, Htags. split; reflexivity.
Qed.

(** The offset a cue is made from: the cached one unless it is missing or
    [0], and then the distance to the start of the session, with no delay. *)
Lemma backfill_offset (s : Stream) (tag : StreamTag) :
  relativeTimestamp (tagssrt.backfill s tag)
  = match relativeTimestamp tag with
    | None => Some (getTimeDifference (timestamp tag) (startTime s) 0)
    | Some 0 => Some (getTimeDifference (timestamp tag) (startTime s) 0)
    | Some cached => Some cached
    end.
Proof.
  unfold tagssrt.backfill, falsyNumber.
  destruct (relativeTimestamp tag) as [cached|] eqn:Hc; [|reflexivity].
  destruct (Z.eqb_spec cached 0) as [->|Hne]; [reflexivity|].
  rewrite Hc. destruct cached; [congruence|reflexivity..].
Qed.

Lemma backfill_keeps_nonzero (s : Stream) (tag : StreamTag) (cached : Z) :
  relativeTimestamp tag = Some cached -> cached <> 0 -> tagssrt.backfill s tag = tag.
Proof.
  intros Hc Hne. unfold tagssrt.backfill, falsyNumber. rewrite Hc.
  destruct (Z.eqb_spec cached 0); [contradiction|reflexivity].
Qed.

End Exports.

(** C6, at a recording whose session record exists and holds no tag. The
    subtitle export answers that there are no tags; the deep-link export
    answers with a list of [0] tags. *)
Theorem tagstwitch_empty_list :
  let vod := {| video_id := "v1"; url := "https://www.twitch.tv/videos/v1";
                streamId := Some "s1" |} in
  let lookup := fun vodid : string => if String.eqb vodid "v1" then Some vod else None in
  let record := {| id := "s1"; startTime := 1000; delay := 15; vodDelay := 15;
                   tags := [] |} in
  let fs : Files := {[ tagsPath "s1" := record ]} in
  tagssrt.execute lookup fs "v1" = ReplyText "El stream no tiene tags."
  /\ tagstwitch.execute lookup fs "v1" = ReplyText ("Tags del stream (0):" +:+ nl +:+ " > ")
  /\ tagstwitch.execute lookup ∅ "v1" = ReplyText "No se encontraron tags para ese vod.".
Proof.
  intros vod lookup record fs. split; [reflexivity|]. split; reflexivity.
Qed.

(** C10, at a tag whose cached offset is [0]: made 15 s after the start of a
    session with 15 s of delay. The subtitle export takes the offset for
    missing, computes it again with no delay, and places the cue at 15 s. *)
Theorem backfill_replaces_zero :
  let s := {| id := "s1"; startTime := 1000000; delay := 15; vodDelay := 15;
              tags := [] |} in
  let tag := {| timestamp := 1015000; relativeTime := "0h0m0s";
                relativeTimestamp := Some 0; moderator := "mod";
                message := "start" |} in
  getTimeDifference (timestamp tag) (startTime s) (delay s) = 0
  /\ relativeTimestamp (tagssrt.backfill s tag) = Some 15000
  /\ tagssrt.mapTag s tag 0
     = "1" +:+ nl +:+ "00:00:15,000 --> 00:00:30,000" +:+ nl +:+ "start" +:+ nl +:+ nl.
Proof.
  intros s tag. split; [reflexivity|]. split; reflexivity.
Qed.

(** ** Hex strings and [slice] *)

Section Hex.

Lemma fromHex_hexOfByte (b : Byte.byte) (rest : string) :
  fromHex (hexOfByte b +:+ rest) = b :: fromHex rest.
Proof. destruct b; reflexivity. Qed.

Lemma fromHex_toHex (buf : Buffer) : fromHex (toHex buf) = buf.
Proof.
  induction buf as [|b buf IH]; [reflexivity|].
  simpl toHex. rewrite fromHex_hexOfByte, IH. reflexivity.
Qed.

Lemma length_toHex (buf : Buffer) : String.length (toHex buf) = (2 * length buf)%nat.
Proof.
  induction buf as [|b buf IH]; [reflexivity|].
  simpl toHex. rewrite length_append, IH. simpl. lia.
Qed.

(** [(s + t).slice(-n)] is [t] and [(s + t).slice(0, -n)] is [s] when [t]
    has [n > 0] characters; [k] is [-n]. *)
Lemma slice_last (s t : string) (k : Z) :
  k < 0 -> Z.of_nat (String.length t) = - k -> slice (s +:+ t) k None = t.
Proof.
  intros Hneg Hlen. unfold slice, sliceIndex.
  rewrite length_append.
  destruct (Z.ltb_spec k 0) as [_|Hge]; [|lia].
  replace (Z.to_nat (Z.max (Z.of_nat (String.length s + String.length t) + k) 0))
    with (String.length s) by lia.
  rewrite substring_suffix.
  replace (Z.to_nat _) with (String.length t) by lia.
  apply substring_all.
Qed.

Lemma slice_but_last (s t : string) (k : Z) :
  k < 0 -> Z.of_nat (String.length t) = - k -> slice (s +:+ t) 0 (Some k) = s.
Proof.
  intros Hneg Hlen. unfold slice, sliceIndex.
  rewrite length_append.
  destruct (Z.ltb_spec k 0) as [_|Hge]; [|lia].
  destruct (Z.ltb_spec 0 0) as [Hlt|_]; [lia|].
  replace (Z.to_nat (Z.min 0 _)) with 0%nat by lia.
  replace (Z.to_nat _) with (String.length s) by lia.
  apply substring_prefix.
Qed.

End Hex.

(** ** The ['utf8'] encoding: which strings come back *)

Section Utf8.

Lemma string_length_ind (P : string -> Prop) :
  (forall x, (forall y, (String.length y < String.length x)%nat -> P y) -> P x) ->
  forall x, P x.
Proof.
  intros Hstep x. remember (String.length x) as n eqn:Hn. revert x Hn.
  induction n as [n IH] using lt_wf_ind. intros x ->.
  apply Hstep. intros y Hlt. exact (IH _ Hlt y eq_refl).
Qed.

Lemma utf8Lead_facts (a : ascii) (more : nat) (lower upper : N) :
  utf8Lead a = Some (more, lower, upper) ->
  (128 <= lower)%N /\ (upper <= 191)%N
  /\ (N_of_ascii a = 237%N -> upper = 159%N).
Proof.
  unfold utf8Lead. cbv zeta.
  repeat match goal with
         | |- context [if ?c then _ else _] =>
             lazymatch c with
             | (?x <=? ?y)%N => destruct (N.leb_spec x y)
             | (?x <? ?y)%N => destruct (N.ltb_spec x y)
             | (?x =? ?y)%N => destruct (N.eqb_spec x y)
             end
         end;
    intros [= <- <- <-]; repeat split; lia.
Qed.

Lemma inRange_spec (lower upper : N) (c : ascii) :
  inRange lower upper c = true <-> (lower <= N_of_ascii c <= upper)%N.
Proof.
  unfold inRange. rewrite andb_true_iff, !N.leb_le. reflexivity.
Qed.

Lemma loneSurrogate_lead (a b c : ascii) (more : nat) (lower upper : N) :
  utf8Lead a = Some (more, lower, upper) -> inRange lower upper b = true ->
  loneSurrogate a b c = false.
Proof.
  intros Hlead Hb. apply utf8Lead_facts in Hlead as (_ & _ & Hed).
  apply inRange_spec in Hb. unfold loneSurrogate.
  destruct (N.eqb_spec (N_of_ascii a) 237) as [Ha|_]; [|reflexivity].
  cbn [andb]. rewrite (Hed Ha) in Hb.
  replace (inRange 160 191 b) with false; [reflexivity|].
  symmetry. apply not_true_is_false. rewrite inRange_spec. lia.
Qed.

Lemma loneSurrogate_continuation (a b c : ascii) (lower upper : N) :
  (128 <= lower)%N -> (upper <= 191)%N -> inRange lower upper a = true ->
  loneSurrogate a b c = false.
Proof.
  intros Hlower Hupper Ha. apply inRange_spec in Ha. unfold loneSurrogate.
  destruct (N.eqb_spec (N_of_ascii a) 237) as [Heq|_]; [lia|reflexivity].
Qed.

Lemma loneSurrogate_ascii (a b c : ascii) (lower upper : N) :
  utf8Lead a = Some (0%nat, lower, upper) -> loneSurrogate a b c = false.
Proof.
  unfold utf8Lead, loneSurrogate. cbv zeta.
  destruct (N.eqb_spec (N_of_ascii a) 237) as [->|_]; [|reflexivity].
  vm_compute. discriminate.
Qed.

Lemma toWellFormed_keep (a : ascii) (tail : string) :
  (forall b c, loneSurrogate a b c = false) ->
  toWellFormed (String a tail) = String a (toWellFormed tail).
Proof.
  intros Hkeep. cbn [toWellFormed]. destruct tail as [|b [|c rest]]; try reflexivity.
  rewrite Hkeep. reflexivity.
Qed.

Lemma toWellFormed_keep_lead (a b : ascii) (tail : string) (more : nat) (lower upper : N) :
  utf8Lead a = Some (more, lower, upper) -> inRange lower upper b = true ->
  toWellFormed (String a (String b tail)) = String a (toWellFormed (String b tail)).
Proof.
  intros Hlead Hb. cbn [toWellFormed]. destruct tail as [|c rest]; [reflexivity|].
  rewrite (loneSurrogate_lead a b c more lower upper Hlead Hb). reflexivity.
Qed.

(** A string without unpaired surrogates is left as it is. *)
Lemma toWellFormed_wellFormed (x : string) :
  isWellFormed x = true -> toWellFormed x = x.
Proof.
  induction x as [x IH] using string_length_ind.
  destruct x as [|a t0]; [reflexivity|]. cbn [isWellFormed].
  destruct (utf8Lead a) as [[[more lower] upper]|] eqn:Hlead; [|discriminate].
  destruct more as [|more].
  { intros Hrest. rewrite toWellFormed_keep by (intros; eapply loneSurrogate_ascii, Hlead).
    rewrite IH; [reflexivity|cbn; lia|exact Hrest]. }
  pose proof (utf8Lead_facts a _ _ _ Hlead) as (Hlower & Hupper & _).
  destruct t0 as [|b t1]; [discriminate|].
  intros Hx. apply andb_true_iff in Hx as [Hb Hx].
  rewrite (toWellFormed_keep_lead a b t1 _ _ _ Hlead Hb).
  rewrite (toWellFormed_keep b)
    by (intros; eapply (loneSurrogate_continuation b); eassumption).
  destruct more as [|more].
  { rewrite IH; [reflexivity|cbn; lia|exact Hx]. }
  destruct t1 as [|c t2]; [discriminate|].
  apply andb_true_iff in Hx as [Hc Hx].
  rewrite (toWellFormed_keep c)
    by (intros; eapply (loneSurrogate_continuation c _ _ 128%N 191%N); [lia|lia|exact Hc]).
  destruct more as [|more].
  { rewrite IH; [reflexivity|cbn; lia|exact Hx]. }
  destruct t2 as [|d t3]; [discriminate|].
  apply andb_true_iff in Hx as [Hd Hx].
  rewrite (toWellFormed_keep d)
    by (intros; eapply (loneSurrogate_continuation d _ _ 128%N 191%N); [lia|lia|exact Hd]).
  rewrite IH; [reflexivity|cbn; lia|exact Hx].
Qed.

(** The decoder gives a string without unpaired surrogates back as it is. *)
Lemma decodeUtf8_wellFormed (x : string) :
  isWellFormed x = true -> decodeUtf8 x = x.
Proof.
  induction x as [x IH] using string_length_ind.
  destruct x as [|a t0]; [reflexivity|]. cbn [isWellFormed decodeUtf8].
  destruct (utf8Lead a) as [[[more lower] upper]|]; [|discriminate].
  destruct more as [|more].
  { intros Hrest. rewrite IH; [reflexivity|cbn; lia|exact Hrest]. }
  destruct t0 as [|b t1]; [discriminate|].
  intros Hx. apply andb_true_iff in Hx as [Hb Hx]. rewrite Hb. cbn [negb].
  destruct more as [|more].
  { rewrite IH; [reflexivity|cbn; lia|exact Hx]. }
  destruct t1 as [|c t2]; [discriminate|].
  apply andb_true_iff in Hx as [Hc Hx]. rewrite Hc. cbn [negb].
  destruct more as [|more].
  { rewrite IH; [reflexivity|cbn; lia|exact Hx]. }
  destruct t2 as [|d t3]; [discriminate|].
  apply andb_true_iff in Hx as [Hd Hx]. rewrite Hd. cbn [negb].
  rewrite IH; [reflexivity|cbn; lia|exact Hx].
Qed.

(** What the decoder gives holds no unpaired surrogate. *)
Lemma isWellFormed_replacement (rest : string) :
  isWellFormed (replacement rest) = isWellFormed rest.
Proof. reflexivity. Qed.

Lemma isWellFormed_decodeUtf8 (bytes : string) : isWellFormed (decodeUtf8 bytes) = true.
Proof.
  induction bytes as [bytes IH] using string_length_ind.
  destruct bytes as [|a t0]; [reflexivity|]. cbn [decodeUtf8].
  destruct (utf8Lead a) as [[[more lower] upper]|] eqn:Hlead.
  2:{ rewrite isWellFormed_replacement. apply IH. cbn. lia. }
  destruct more as [|more].
  { cbn [isWellFormed]. rewrite Hlead. apply IH. cbn. lia. }
  destruct t0 as [|b t1]; [reflexivity|].
  destruct (inRange lower upper b) eqn:Hb; cbn [negb].
  2:{ rewrite isWellFormed_replacement. apply IH. cbn. lia. }
  destruct more as [|more].
  { cbn [isWellFormed]. rewrite Hlead, Hb. apply IH. cbn. lia. }
  destruct t1 as [|c t2]; [reflexivity|].
  destruct (inRange 128 191 c) eqn:Hc; cbn [negb].
  2:{ rewrite isWellFormed_replacement. apply IH. cbn. lia. }
  destruct more as [|more].
  { cbn [isWellFormed]. rewrite Hlead, Hb, Hc. apply IH. cbn. lia. }
  destruct t2 as [|d t3]; [reflexivity|].
  destruct (inRange 128 191 d) eqn:Hd; cbn [negb].
  2:{ rewrite isWellFormed_replacement. apply IH. cbn. lia. }
  cbn [isWellFormed]. rewrite Hlead, Hb, Hc, Hd. apply IH. cbn. lia.
Qed.

(** Encoding and decoding gives a string back exactly when it holds no
    unpaired surrogate. *)
Lemma utf8_round_trip (x : string) :
  isWellFormed x = true -> utf8Decode (utf8Encode x) = x.
Proof.
  intros Hx. unfold utf8Decode, utf8Encode.
  rewrite string_of_list_byte_of_string, (toWellFormed_wellFormed x Hx).
  apply decodeUtf8_wellFormed, Hx.
Qed.


Lemma utf8_round_trip_only (x : string) :
  utf8Decode (utf8Encode x) = x -> isWellFormed x = true.
Proof.
  intros Heq. rewrite <- Heq. unfold utf8Decode. apply isWellFormed_decodeUtf8.
Qed.

End Utf8.

(** ** [TokenEncryption]: decrypting what was encrypted *)

Section Encryption.
Context {C : AeadCipher} {HC : AeadCorrect C}.

Lemma decrypt_of_encryptWith (key : aead_key) (ivBytes : Buffer) (x : string) :
  decrypt key (encrypted (encryptWith key ivBytes x))
    (encrypted_iv (encryptWith key ivBytes x)) = Some (utf8Decode (utf8Encode x)).
Proof.
  unfold decrypt, encryptWith. cbn [encrypted encrypted_iv].
  set (sealed := gcm_seal key ivBytes (utf8Encode x)).
  assert (Htag : Z.of_nat (String.length (toHex sealed.2)) = 32).
  { rewrite length_toHex. unfold sealed. rewrite gcm_tag_length. reflexivity. }
  rewrite slice_last, slice_but_last by (lia || exact Htag).
  rewrite !fromHex_toHex. unfold sealed.
  rewrite gcm_open_seal. reflexivity.
Qed.

(** C8. Whatever IV is drawn, decrypting the output of [encrypt] with the
    IV that comes with it gives the ['utf8'] decoding of the ['utf8']
    encoding of the string. That is the string itself exactly when the
    string is well formed: when it holds no surrogate that is not half of a
    pair. The empty string and strings with null bytes are well formed. *)
Theorem decrypt_encrypt (key : aead_key) (x : string) (e : Entropy) :
  let result :=
    decrypt key (encrypted (encrypt key x e).1) (encrypted_iv (encrypt key x e).1) in
  result = Some (utf8Decode (utf8Encode x))
  /\ (isWellFormed x = true -> result = Some x)
  /\ (result = Some x -> isWellFormed x = true).
Proof.
  intros result.
  assert (Hresult : result = Some (utf8Decode (utf8Encode x))).
  { subst result. unfold encrypt, randomBytes. cbn [fst]. apply decrypt_of_encryptWith. }
  split; [exact Hresult|]. rewrite Hresult. split.
  - intros Hx. rewrite (utf8_round_trip x Hx). reflexivity.
  - intros [= Heq]. exact (utf8_round_trip_only x Heq).
Qed.

End Encryption.

(** ** The credential client: what is stored, and when the next refresh fires *)

Section ClientFacts.
Context {C : AeadCipher} {Store : Type} {TS : TokenStorage Store}.

(** The record [saveTokens] hands to the store: the stored IV is the first
    draw, the access token is sealed under the second and the refresh token
    under the third. *)
Lemma saveTokens_record (c : Client) (access refresh : string) (ms now : Z)
    (st : Store) (e : Entropy) :
  saveTokens c access refresh ms now st e
  = (save {| EncryptedTokens.iv := toHex (drawAt e 0);
             EncryptedTokens.accessToken :=
               encrypted (encryptWith (tokenEncryption c) (drawAt e 1) access);
             EncryptedTokens.refreshToken :=
               encrypted (encryptWith (tokenEncryption c) (drawAt e 2) refresh);
             EncryptedTokens.expiresAt := now + ms |} st,
     {| pool := pool e; cursor := S (S (S (cursor e))) |}).
Proof.
  unfold saveTokens, encrypt, randomBytes, drawAt. cbn [pool cursor].
  rewrite Nat.add_0_r, Nat.add_1_r.
  replace (cursor e + 2)%nat with (S (S (cursor e))) by lia.
  reflexivity.
Qed.

(** The timer after [scheduleTokenRefresh] is the one just armed. *)
Lemma scheduleTokenRefresh_timer (now : Z) (interval : option Z) (c : Client) :
  tokenRefreshTimeout (scheduleTokenRefresh now interval c)
  = Some {| timer_armedAt := now;
            timer_interval := default (tokenRefreshInterval c) interval |}.
Proof. reflexivity. Qed.

(** C9. After a refresh that succeeded (the provider answered with
    [expires_in = E] and the store took the record) the pending timer was
    armed at the end of the refresh with [(E - 300) * 1000] ms, so it fires
    [E - 300] seconds later: for [E = 3600], 3300 s and not 3600 s later.
    After a refresh that failed, because the exchange failed or because the
    store refused the record, the timer was armed with 60000 ms, whatever
    the expiry was. *)
Theorem refreshToken_schedule (run : RefreshRun) (c : Client) (st : Store) (e : Entropy) :
  let c' := (refreshToken run c st e).1.1 in
  let now := clockAtSchedule run in
  (forall data,
      response run = Some data ->
      (forall tokens, is_Some (save tokens st)) ->
      tokenRefreshTimeout c'
        = Some {| timer_armedAt := now; timer_interval := (expires_in data - 300) * 1000 |}
      /\ (firesAt <$> tokenRefreshTimeout c') = Some (now + (expires_in data - 300) * 1000)
      /\ (expires_in data = 3600 ->
          (firesAt <$> tokenRefreshTimeout c') = Some (now + 3300 * 1000)
          /\ (firesAt <$> tokenRefreshTimeout c') <> Some (now + 3600 * 1000)))
  /\ (response run = None \/ (forall tokens, save tokens st = None) ->
      tokenRefreshTimeout c' = Some {| timer_armedAt := now; timer_interval := 60000 |}
      /\ (firesAt <$> tokenRefreshTimeout c') = Some (now + 60000)).
Proof.
  intros c' now. subst c' now. unfold refreshToken. split.
  - intros data Hresp Hsave. rewrite Hresp, saveTokens_record.
    destruct (Hsave {| EncryptedTokens.iv := toHex (drawAt e 0);
                       EncryptedTokens.accessToken := encrypted (encryptWith
                         (tokenEncryption (setTokens (access_token data) (refresh_token data) c))
                         (drawAt e 1) (access_token data));
                       EncryptedTokens.refreshToken := encrypted (encryptWith
                         (tokenEncryption (setTokens (access_token data) (refresh_token data) c))
                         (drawAt e 2) (refresh_token data));
                       EncryptedTokens.expiresAt := clockAtSave run + expires_in data * 1000 |})
      as [st' Hst'].
    rewrite Hst'. cbn [fst snd]. rewrite scheduleTokenRefresh_timer. cbn [default].
    split; [reflexivity|]. split; [reflexivity|].
    intros HE. rewrite HE. unfold firesAt. cbn.
    split; [f_equal; lia|]. intros Heq. injection Heq. lia.
  - intros [Hresp|Hsave].
    + rewrite Hresp. cbn [fst snd]. rewrite scheduleTokenRefresh_timer. split; reflexivity.
    + destruct (response run) as [data|].
      * rewrite saveTokens_record, Hsave. cbn [fst snd].
        rewrite scheduleTokenRefresh_timer. split; reflexivity.
      * cbn [fst snd]. rewrite scheduleTokenRefresh_timer. split; reflexivity.
Qed.

(** At start-up the constructor arms the timer anew once [initializeTokens]
    is done, with the configured interval, also when [initializeTokens] ran a
    refresh that had armed it. *)
Lemma startUp_timer (now : Z) (run : RefreshRun) (connected : bool) (clockAtStart : Z)
    (c : Client) (st : Store) (e : Entropy) :
  tokenRefreshTimeout (startUp now run connected clockAtStart c st e).1.1
  = Some {| timer_armedAt := clockAtStart;
            timer_interval := tokenRefreshInterval (initializeTokens now run c st e).1.1 |}.
Proof.
  unfold startUp. destruct (initializeTokens now run c st e) as [[c1 st1] e1].
  cbn [fst snd]. rewrite scheduleTokenRefresh_timer. cbn [default].
  unfold connect, handleDisconnect. destruct connected; reflexivity.
Qed.

End ClientFacts.

(** ** The encrypted store holds sealed records only *)

Section SealedStore.
Context {C : AeadCipher} {Store : Type} {TS : TokenStorage Store}
  {HS : TokenStorageCorrect Store}.

Lemma encryptWith_sealed (key : aead_key) (ivBytes : Buffer) (text : string) :
  sealedField (encrypted (encryptWith key ivBytes text)).
Proof. exists key, ivBytes, text. reflexivity. Qed.

Lemma saveTokens_sealed (c : Client) (access refresh : string) (ms now : Z)
    (st st' : Store) (e : Entropy) :
  (saveTokens c access refresh ms now st e).1 = Some st' -> storeSealed st'.
Proof.
  rewrite saveTokens_record. cbn [fst]. intros Hsave r Hload.
  rewrite (load_save _ _ _ Hsave) in Hload. injection Hload as <-.
  split; apply encryptWith_sealed.
Qed.

Lemma refreshToken_sealed (run : RefreshRun) (c : Client) (st : Store) (e : Entropy) :
  storeSealed st -> storeSealed (refreshToken run c st e).1.2.
Proof.
  intros Hst. unfold refreshToken.
  destruct (response run) as [data|]; [|exact Hst].
  destruct (saveTokens _ _ _ _ _ st e) as [[st'|] e'] eqn:Hsave; [|exact Hst].
  cbn [fst snd]. eapply saveTokens_sealed. rewrite Hsave. reflexivity.
Qed.

Lemma initializeTokens_sealed (now : Z) (run : RefreshRun) (c : Client) (st : Store)
    (e : Entropy) :
  storeSealed st -> storeSealed (initializeTokens now run c st e).1.2.
Proof.
  intros Hst. unfold initializeTokens.
  destruct (load st) as [stored|]; [|exact Hst].
  destruct (decrypt _ (EncryptedTokens.accessToken stored) _); [|exact Hst].
  destruct (decrypt _ (EncryptedTokens.refreshToken stored) _); [|exact Hst].
  destruct (now <? EncryptedTokens.expiresAt stored); [exact Hst|].
  apply refreshToken_sealed, Hst.
Qed.

Lemma rotateEncryptionKey_sealed (newKey : string) (now : Z) (c : Client) (st : Store)
    (e : Entropy) :
  storeSealed st -> storeSealed (rotateEncryptionKey newKey now c st e).1.1.2.
Proof.
  intros Hst. unfold rotateEncryptionKey.
  destruct (saveTokens _ _ _ _ _ st e) as [[st'|] e'] eqn:Hsave; [|exact Hst].
  cbn [fst snd]. eapply saveTokens_sealed. rewrite Hsave. reflexivity.
Qed.

Lemma applyOp_sealed (op : ClientOp) (x : Client * Store * Entropy) :
  storeSealed x.1.2 -> storeSealed (applyOp x op).1.2.
Proof.
  destruct x as [[c st] e]. cbn [fst snd]. intros Hst.
  destruct op as [now run|run|newKey now]; cbn [applyOp].
  - apply initializeTokens_sealed, Hst.
  - apply refreshToken_sealed, Hst.
  - apply rotateEncryptionKey_sealed, Hst.
Qed.

Lemma applyOps_sealed (ops : list ClientOp) (x : Client * Store * Entropy) :
  storeSealed x.1.2 -> storeSealed (applyOps ops x).1.2.
Proof.
  unfold applyOps. revert x.
  induction ops as [|op ops IH]; intros x Hst; [exact Hst|].
  cbn [fold_left]. apply IH, applyOp_sealed, Hst.
Qed.

(** After a key rotation that went through, the record seals the tokens
    the client holds, which the rotation left as they were, under the new
    key. *)
Lemma rotateEncryptionKey_record (newKey : string) (now : Z) (c c' : Client)
    (st st' : Store) (e e' : Entropy) :
  rotateEncryptionKey newKey now c st e = (c', st', e', true) ->
  currentToken c' = currentToken c
  /\ config_refreshToken c' = config_refreshToken c
  /\ tokenEncryption c' = newTokenEncryption newKey
  /\ exists r iv1 iv2,
       load st' = Some r
       /\ EncryptedTokens.accessToken r
          = encrypted (encryptWith (tokenEncryption c') iv1 (currentToken c))
       /\ EncryptedTokens.refreshToken r
          = encrypted (encryptWith (tokenEncryption c') iv2 (config_refreshToken c)).
Proof.
  unfold rotateEncryptionKey. rewrite saveTokens_record.
  destruct (save _ st) as [st1|] eqn:Hsave; [|discriminate].
  intros [= <- <- <-]. repeat split.
  eexists _, _, _. split; [exact (load_save _ _ _ Hsave)|]. split; reflexivity.
Qed.

End SealedStore.

(** ** The stand-in cipher and the file store meet their interfaces *)

Section Instances.

Lemma standIn_correct : AeadCorrect StandIn.cipher.
Proof.
  split.
  - intros key ivBytes plain. cbn. unfold StandIn.open, StandIn.seal. cbn [fst snd].
    rewrite decide_True by reflexivity. rewrite rev_involutive. reflexivity.
  - intros key ivBytes plain. cbn. unfold StandIn.seal, StandIn.tagOf. cbn [snd].
    apply length_resize.
Qed.

Lemma fileTokenStorage_correct : TokenStorageCorrect FileStore.
Proof.
  intros tokens s s'. cbn. destruct (writable s); [|discriminate].
  intros [= <-]. cbn. apply lookup_insert_eq.
Qed.

End Instances.

(** The string with a null byte, the empty string, a token and a string
    with characters of two, three and four bytes, each through [encrypt] and
    [decrypt] under the stand-in cipher. *)
Lemma decrypt_encrypt_witness :
  let key := newTokenEncryption (C := StandIn.cipher) "secret" in
  let roundTrip := fun x : string =>
    decrypt key (encrypted (encrypt key x Sample.entropy).1)
      (encrypted_iv (encrypt key x Sample.entropy).1) in
  roundTrip "" = Some ""
  /\ roundTrip (String (ascii_of_nat 0) "after-null") = Some (String (ascii_of_nat 0) "after-null")
  /\ roundTrip "new-access" = Some "new-access"
  /\ roundTrip "agregó € 😀" = Some "agregó € 😀".
Proof.
  intros key roundTrip. subst roundTrip. cbv beta.
  split; [|split; [|split]].
  - destruct (decrypt_encrypt (HC := standIn_correct) key "" Sample.entropy)
      as (_ & Hback & _). apply Hback. reflexivity.
  - destruct (decrypt_encrypt (HC := standIn_correct) key
                (String (ascii_of_nat 0) "after-null") Sample.entropy)
      as (_ & Hback & _). apply Hback. reflexivity.
  - destruct (decrypt_encrypt (HC := standIn_correct) key "new-access" Sample.entropy)
      as (_ & Hback & _). apply Hback. reflexivity.
  - destruct (decrypt_encrypt (HC := standIn_correct) key "agregó € 😀" Sample.entropy)
      as (_ & Hback & _). apply Hback. reflexivity.
Defined.

(** The string of the one code unit U+D800, a surrogate with no partner,
    through [encrypt] and [decrypt] under the stand-in cipher: what comes
    back is U+FFFD, another string. *)
Lemma decrypt_encrypt_unpaired_surrogate :
  let key := newTokenEncryption (C := StandIn.cipher) "secret" in
  let x := Sample2.unpaired in
  isWellFormed x = false
  /\ utf8Encode x = [Byte.xef; Byte.xbf; Byte.xbd]
  /\ decrypt key (encrypted (encrypt key x Sample.entropy).1)
       (encrypted_iv (encrypt key x Sample.entropy).1) = Some (replacement EmptyString)
  /\ replacement EmptyString <> x.
Proof.
  intros key x. split; [reflexivity|]. split; [reflexivity|].
  split; [vm_compute; reflexivity|discriminate].
Qed.

(** The refresh of [Sample.run]: armed at 1000500 with 3300000 ms. *)
Lemma refreshToken_schedule_witness :
  let c' := (refreshToken Sample.run Sample.client Sample.store Sample.entropy).1.1 in
  let failed := (refreshToken Sample.failedRun Sample.client Sample.store Sample.entropy).1.1 in
  (firesAt <$> tokenRefreshTimeout c') = Some (1000500 + 3300000)
  /\ (firesAt <$> tokenRefreshTimeout c') <> Some (1000500 + 3600000)
  /\ (firesAt <$> tokenRefreshTimeout failed) = Some (1000500 + 60000).
Proof.
  intros c' failed.
  destruct (refreshToken_schedule Sample.run Sample.client Sample.store Sample.entropy)
    as [Hok _].
  destruct (refreshToken_schedule Sample.failedRun Sample.client Sample.store Sample.entropy)
    as [_ Hfail].
  destruct (Hok _ eq_refl) as (_ & _ & H3600).
  { intros tokens. cbn. eexists. reflexivity. }
  destruct (H3600 eq_refl) as [Hat Hnot].
  split; [exact Hat|]. split; [exact Hnot|].
  apply Hfail. left. reflexivity.
Defined.

(** ** Start-up after a save *)

Section Startup.
Context {C : AeadCipher} {HC : AeadCorrect C} {Store : Type} {TS : TokenStorage Store}
  {HS : TokenStorageCorrect Store}.

(** Decrypting a sealed text with another IV is opening its ciphertext
    under that IV. *)
Lemma decrypt_under (key : aead_key) (iv0 iv1 : Buffer) (x : string) :
  decrypt key (encrypted (encryptWith key iv1 x)) (toHex iv0)
  = utf8Decode
      <$> gcm_open key iv0 (gcm_seal key iv1 (utf8Encode x)).1
            (gcm_seal key iv1 (utf8Encode x)).2.
Proof.
  unfold decrypt, encryptWith. cbn [encrypted].
  set (sealed := gcm_seal key iv1 (utf8Encode x)).
  assert (Htag : Z.of_nat (String.length (toHex sealed.2)) = 32).
  { rewrite length_toHex. unfold sealed. rewrite gcm_tag_length. reflexivity. }
  rewrite slice_last, slice_but_last by (lia || exact Htag).
  rewrite !fromHex_toHex.
  destruct (gcm_open key iv0 sealed.1 sealed.2); reflexivity.
Qed.

(** Start-up reads the record with the stored IV, which [saveTokens] drew
    apart from the IVs it sealed under. When the cipher rejects the access
    token under the stored IV, start-up adopts nothing. *)
Lemma initializeTokens_after_saveTokens_rejected (c saver : Client) (access refresh : string)
    (ms savedAt now : Z) (run : RefreshRun) (st st' : Store) (e e' e2 : Entropy) :
  saveTokens saver access refresh ms savedAt st e = (Some st', e') ->
  tokenEncryption c = tokenEncryption saver ->
  gcm_open (tokenEncryption saver) (drawAt e 0)
    (gcm_seal (tokenEncryption saver) (drawAt e 1) (utf8Encode access)).1
    (gcm_seal (tokenEncryption saver) (drawAt e 1) (utf8Encode access)).2 = None ->
  initializeTokens now run c st' e2 = (c, st', e2).
Proof.
  rewrite saveTokens_record. intros Hsaved Hkey Hopen.
  apply (f_equal fst) in Hsaved as Hsave. cbn [fst] in Hsave.
  unfold initializeTokens. rewrite (load_save _ _ _ Hsave).
  cbn [EncryptedTokens.iv EncryptedTokens.accessToken].
  rewrite Hkey, decrypt_under, Hopen. reflexivity.
Qed.

(** Only when the three draws coincide is the stored IV the one both
    tokens were sealed under; start-up then adopts the saved pair, if the
    tokens are well formed. *)
Lemma initializeTokens_after_saveTokens_same_iv (c saver : Client) (access refresh : string)
    (ms savedAt now : Z) (run : RefreshRun) (st st' : Store) (e e' e2 : Entropy) :
  saveTokens saver access refresh ms savedAt st e = (Some st', e') ->
  tokenEncryption c = tokenEncryption saver ->
  drawAt e 1 = drawAt e 0 -> drawAt e 2 = drawAt e 0 ->
  now < savedAt + ms ->
  isWellFormed access = true -> isWellFormed refresh = true ->
  initializeTokens now run c st' e2 = (setTokens access refresh c, st', e2).
Proof.
  rewrite saveTokens_record. intros Hsaved Hkey H1 H2 Hnow Haccess Hrefresh.
  apply (f_equal fst) in Hsaved as Hsave. cbn [fst] in Hsave.
  unfold initializeTokens. rewrite (load_save _ _ _ Hsave).
  cbn [EncryptedTokens.iv EncryptedTokens.accessToken EncryptedTokens.refreshToken
       EncryptedTokens.expiresAt].
  rewrite Hkey, H1, H2, !decrypt_under, !gcm_open_seal. cbn [fmap option_fmap option_map].
  rewrite (utf8_round_trip access Haccess), (utf8_round_trip refresh Hrefresh).
  destruct (Z.ltb_spec now (savedAt + ms)); [reflexivity|lia].
Qed.

End Startup.

(** C3, at a pair saved for an hour and a start-up one millisecond later,
    with draws that differ. The record is stored and has not expired; each
    token decrypts under the IV it was sealed with, but not under the stored
    one; start-up keeps the tokens of the configuration. *)
Theorem startup_after_save_keeps_configured_tokens :
  let key := tokenEncryption Sample.client in
  let saved := saveTokens Sample.client "new-access" "new-refresh" 3600000 1000000
                 Sample.store Sample.entropy in
  exists st' r,
    saved.1 = Some st'
    /\ load st' = Some r
    /\ 1000001 < EncryptedTokens.expiresAt r
    /\ decrypt key (EncryptedTokens.accessToken r) (toHex (drawAt Sample.entropy 1))
       = Some "new-access"
    /\ decrypt key (EncryptedTokens.refreshToken r) (toHex (drawAt Sample.entropy 2))
       = Some "new-refresh"
    /\ EncryptedTokens.iv r = toHex (drawAt Sample.entropy 0)
    /\ decrypt key (EncryptedTokens.accessToken r) (EncryptedTokens.iv r) = None
    /\ currentToken (initializeTokens 1000001 Sample.failedRun Sample.client st' saved.2).1.1
       = "initial-access"
    /\ config_refreshToken
         (initializeTokens 1000001 Sample.failedRun Sample.client st' saved.2).1.1
       = "initial-refresh".
Proof.
  intros key saved. subst saved. rewrite saveTokens_record. cbn [fst snd].
  eexists _, _. split; [reflexivity|]. split; [apply lookup_insert_eq|].
  cbn [EncryptedTokens.iv EncryptedTokens.accessToken EncryptedTokens.refreshToken
       EncryptedTokens.expiresAt].
  split; [lia|].
  split; [etrans; [apply (decrypt_of_encryptWith (HC := standIn_correct))|reflexivity]|].
  split; [etrans; [apply (decrypt_of_encryptWith (HC := standIn_correct))|reflexivity]|].
  split; [reflexivity|].
  assert (Hrej : decrypt key
            (encrypted (encryptWith key (drawAt Sample.entropy 1) "new-access"))
            (toHex (drawAt Sample.entropy 0)) = None) by (vm_compute; reflexivity).
  split; [exact Hrej|].
  unfold initializeTokens.
  change (load ?s) with (disk s !! filePath s). cbn [disk filePath].
  rewrite lookup_insert_eq. cbn [EncryptedTokens.iv EncryptedTokens.accessToken].
  change (tokenEncryption Sample.client) with key. rewrite Hrej.
  split; reflexivity.
Qed.

(** ** Which credential records are sealed *)

Section Lifecycle.
Context {C : AeadCipher} {HC : AeadCorrect C} {Store : Type} {TS : TokenStorage Store}
  {HS : TokenStorageCorrect Store}.

(** A sealed field ends with the 32 hex digits of a tag. *)
Lemma sealedField_length (field : string) :
  sealedField field -> (32 <= String.length field)%nat.
Proof.
  intros (key & ivBytes & text & ->). unfold encryptWith. cbn [encrypted].
  rewrite length_append, !length_toHex, gcm_tag_length. lia.
Qed.

(** Whatever start-ups, refreshes and key rotations the encrypted
    credential client runs on a store whose record, if any, is sealed, every
    record in its store holds for the access token and for the refresh token
    what the authenticated cipher returned for some text: hex ciphertext and
    hex tag, at least 32 characters. *)
Lemma encrypted_store_sealed (ops : list ClientOp) (c : Client) (st : Store)
    (e : Entropy) :
  storeSealed st ->
  forall r, load (applyOps ops (c, st, e)).1.2 = Some r ->
    sealedRecord r
    /\ (32 <= String.length (EncryptedTokens.accessToken r))%nat
    /\ (32 <= String.length (EncryptedTokens.refreshToken r))%nat.
Proof.
  intros Hst r Hload.
  assert (Hsealed : sealedRecord r).
  { apply (applyOps_sealed ops (c, st, e)); [exact Hst|exact Hload]. }
  split; [exact Hsealed|].
  destruct Hsealed as [Ha Hr]. split; apply sealedField_length; assumption.
Qed.

End Lifecycle.

(** A refresh, a key rotation and a start-up on the sample client: the
    store ends with one record, and it is sealed. *)
Lemma encrypted_store_sealed_sample :
  let ops := [OpRefresh Sample.run; OpRotate "rotated" 2000000;
              OpInitialize 2000001 Sample.failedRun] in
  let st' := (applyOps ops (Sample.client, Sample.store, Sample.entropy)).1.2 in
  is_Some (load st')
  /\ forall r, load st' = Some r ->
       sealedRecord (C := StandIn.cipher) r
       /\ (32 <= String.length (EncryptedTokens.accessToken r))%nat
       /\ (32 <= String.length (EncryptedTokens.refreshToken r))%nat.
Proof.
  intros ops st'. split.
  - subst st' ops. eexists. vm_compute. reflexivity.
  - apply (encrypted_store_sealed (HC := standIn_correct) (HS := fileTokenStorage_correct)).
    intros r Hload. discriminate Hload.
Qed.

(** C2, at the first save of the OAuth bot. The token file then holds the
    access token and the refresh token as they were handed over: they are
    read back as they are and are not output of the cipher. The encrypted
    client, after a refresh on an empty store, holds a sealed record. *)
Theorem oauth_save_writes_plaintext :
  exists file',
    TwitchBot.saveTokens Sample.tokenData true None = Some file'
    /\ TwitchBot.accessToken <$> TwitchBot.loadTokens file' = Some "plain-access"
    /\ TwitchBot.loadTokens file' ≫= TwitchBot.refreshToken = Some "plain-refresh"
    /\ ~ tokenFileSealed (C := StandIn.cipher) file'
    /\ storeSealed (C := StandIn.cipher)
         (refreshToken Sample.run Sample.client Sample.store Sample.entropy).1.2.
Proof.
  eexists. split; [reflexivity|]. split; [reflexivity|]. split; [reflexivity|]. split.
  - intros Hsealed. destruct (Hsealed Sample.tokenData eq_refl) as [Haccess _].
    apply (sealedField_length (HC := standIn_correct)) in Haccess.
    vm_compute in Haccess. lia.
  - apply (refreshToken_sealed (HS := fileTokenStorage_correct)).
    intros r Hload. discriminate Hload.
Qed.

(* ================================================================== *)
(** * Part III. Further properties of the code                         *)
(* ================================================================== *)

(** ** Durable records of different sessions *)

Section Records.

Lemma append_inj_r (s1 s2 t : string) : s1 +:+ t = s2 +:+ t -> s1 = s2.
Proof.
  revert s2. induction s1 as [|a s1 IH]; intros [|b s2] Heq.
  - reflexivity.
  - apply (f_equal String.length) in Heq.
    rewrite !length_append in Heq. simpl in Heq. lia.
  - apply (f_equal String.length) in Heq.
    rewrite !length_append in Heq. simpl in Heq. lia.
  - rewrite !append_cons in Heq. injection Heq as -> Heq. f_equal. apply IH, Heq.
Qed.

(** Two sessions never share a file. *)
Lemma tagsPath_inj (id1 id2 : string) : tagsPath id1 = tagsPath id2 -> id1 = id2.
Proof.
  unfold tagsPath. intros Heq.
  apply (inj (String.append "./tags.")) in Heq. apply append_inj_r in Heq. exact Heq.
Qed.

(** X1. A tag command and a went-live signal write at most the durable
    record of their own session: the record of every other session id reads
    as before, whether the write goes through or not. *)
Theorem other_records_untouched (globalDelay now : Z) (userName : string)
    (params : list string) (event : StreamOnlineEvent) (writeOk : bool) (w : World)
    (other : string) :
  (forall s, stream w = Some s -> other <> id s ->
     loadStream other (files (tagCommand globalDelay now userName params writeOk w).1)
     = loadStream other (files w))
  /\ (stream w = None ->
      files (tagCommand globalDelay now userName params writeOk w).1 = files w)
  /\ (other <> event_id event ->
      loadStream other (files (onStreamOnline globalDelay event writeOk w).1)
      = loadStream other (files w)).
Proof.
  split; [|split].
  - intros s Hs Hne. unfold tagCommand. rewrite Hs. cbv zeta.
    unfold saveStream, writeFile, loadStream. destruct writeOk; cbn [fst files id]; [|reflexivity].
    apply lookup_insert_ne. intros Heq. apply tagsPath_inj in Heq. congruence.
  - intros Hs. unfold tagCommand. rewrite Hs. reflexivity.
  - intros Hne. unfold onStreamOnline, writeFile, loadStream, newStream.
    destruct writeOk; cbn [fst files id]; [|reflexivity].
    apply lookup_insert_ne. intros Heq. apply tagsPath_inj in Heq. congruence.
Qed.

(** Two sessions with records of their own; a tag for the first and a
    went-live signal for a third leave the record of the second as it
    was. *)
Lemma other_records_untouched_witness :
  let s1 := {| id := "s1"; startTime := 1000; delay := 0; vodDelay := 0; tags := [] |} in
  let s2 := {| id := "s2"; startTime := 2000; delay := 0; vodDelay := 0; tags := [] |} in
  let w := {| stream := Some s1;
              files := {[ tagsPath "s1" := s1; tagsPath "s2" := s2 ]} |} in
  loadStream "s2" (files (tagCommand 0 5000 "mod" ["hi"] true w).1) = Some s2
  /\ loadStream "s2"
       (files (onStreamOnline 0 {| event_id := "s3"; event_startDate := 9000 |} true w).1)
     = Some s2.
Proof.
  intros s1 s2 w.
  destruct (other_records_untouched 0 5000 "mod" ["hi"]
              {| event_id := "s3"; event_startDate := 9000 |} true w "s2")
    as (Htag & _ & Honline).
  split.
  - rewrite (Htag s1 eq_refl); [reflexivity|discriminate].
  - rewrite Honline; [reflexivity|discriminate].
Defined.

End Records.

(** ** Runs of tag commands *)

Section TagRuns.

Let tagStep (globalDelay : Z) (acc : World * list Effect) (r : TagRequest)
    : World * list Effect :=
  let result := tagCommand globalDelay (request_now r) (request_userName r)
                  (request_params r) (request_writeOk r) acc.1 in
  (result.1, acc.2 ++ result.2).






(** X3. What a flushed tag leaves on disk is what a restart resumes. After a
    tag command whose write went through, start-up for the same stream id
    installs the session as it was in memory, the new tag included,
    whatever start date and delay the restarted process has. After a tag
    command whose write failed, start-up resumes what was on disk before,
    or makes a fresh session. *)
Theorem restart_resumes_flushed_session (globalDelay now : Z) (userName : string)
    (params : list string) (writeOk : bool) (w : World) (s : Stream)
    (globalDelay' startDate : Z) :
  stream w = Some s ->
  let w' := (tagCommand globalDelay now userName params writeOk w).1 in
  let restarted :=
    initializeBot_stream globalDelay'
      (Some {| event_id := id s; event_startDate := startDate |})
      {| stream := None; files := files w' |} in
  files restarted = files w'
  /\ if writeOk
     then stream restarted = stream w'
          /\ (tags <$> stream restarted)
             = Some (tags s ++ [tagOfRequest globalDelay (startTime s)
                                  {| request_now := now; request_userName := userName;
                                     request_params := params; request_writeOk := true |}])
     else stream restarted
          = Some (getStoredStreamOrNew globalDelay' (id s) startDate (files w)).
Proof.
  intros Hs w' restarted. subst w' restarted. unfold tagCommand. rewrite Hs. cbv zeta.
  unfold saveStream, writeFile, initializeBot_stream, getStoredStreamOrNew, loadStream.
  destruct writeOk; cbn [fst snd files stream event_id event_startDate id].
  - split; [reflexivity|]. rewrite lookup_insert_eq. split; reflexivity.
  - split; reflexivity.
Qed.

(** A session with no record on disk: one flushed tag, then a restart that
    reports another start date. *)
Lemma restart_resumes_flushed_session_witness :
  let s := {| id := "s1"; startTime := 1000000; delay := 15; vodDelay := 15;
              tags := [] |} in
  let w := {| stream := Some s; files := ∅ |} in
  let w' := (tagCommand 15 1100000 "mod" ["clip"] true w).1 in
  let restarted :=
    initializeBot_stream 0 (Some {| event_id := "s1"; event_startDate := 1000777 |})
      {| stream := None; files := files w' |} in
  (startTime <$> stream restarted) = Some 1000000
  /\ (map relativeTime <$> (tags <$> stream restarted)) = Some ["0h1m25s"].
Proof.
  intros s w w' restarted.
  destruct (restart_resumes_flushed_session 15 1100000 "mod" ["clip"] true w s 0 1000777
              eq_refl) as (_ & Hstream & Htags).
  split.
  - etrans; [exact (f_equal (fmap startTime) Hstream)|reflexivity].
  - etrans; [exact (f_equal (fmap (map relativeTime)) Htags)|reflexivity].
Defined.

(** X4. Going offline clears the active session and leaves every durable
    record in place. Until the next session, tag commands change nothing:
    each one is answered with the no-stream error, and neither the state nor
    the records move. *)
Theorem offline_ignores_tags (globalDelay : Z) (requests : list TagRequest) (w : World) :
  let w0 := onStreamOffline w in
  files w0 = files w
  /\ getTags w0 = []
  /\ (tagCommands globalDelay requests w0).1 = w0
  /\ (tagCommands globalDelay requests w0).2
     = flat_map (fun _ => [WarnError "New tag attempted but there is no stream";
                           ChatReply "Error: No hay stream"]) requests.
Proof.
  intros w0. split; [reflexivity|]. split; [reflexivity|].
  assert (Hrun : forall (effects : list Effect),
             fold_left (tagStep globalDelay) requests (w0, effects)
             = (w0, effects
                    ++ flat_map (fun _ => [WarnError "New tag attempted but there is no stream";
                                           ChatReply "Error: No hay stream"]) requests)).
  { induction requests as [|r requests IH]; intros effects; cbn [fold_left flat_map].
    - rewrite app_nil_r. reflexivity.
    - unfold tagStep at 2. cbn [fst snd]. unfold tagCommand at 1 2. cbn [stream w0 onStreamOffline].
      cbn [fst snd]. rewrite IH, <- app_assoc. reflexivity. }
  unfold tagCommands. fold (tagStep globalDelay). rewrite Hrun. split; reflexivity.
Qed.

End TagRuns.

(** ** Which durations share a timestamp *)

Section Timestamps.

Lemma numeral_cons (c : ascii) (s : string) :
  numeral (String c s) <-> numeralChar c = true /\ numeral s.
Proof.
  unfold numeral. cbn [list_ascii_of_string].
  apply (Forall_cons (fun a => numeralChar a = true)).
Qed.

Lemma numeral_append (s t : string) : numeral s -> numeral t -> numeral (s +:+ t).
Proof.
  induction s as [|a s IH]; intros Hs Ht; [exact Ht|].
  rewrite append_cons. apply numeral_cons. apply numeral_cons in Hs as [Ha Hs].
  split; [exact Ha|apply IH; assumption].
Qed.

Lemma pretty_N_char_numeral (x : N) : numeralChar (pretty_N_char x) = true.
Proof. unfold pretty_N_char. repeat case_match; reflexivity. Qed.

Lemma pretty_N_go_numeral (x : N) : forall s, numeral s -> numeral (pretty_N_go x s).
Proof.
  induction (N.lt_wf_0 x) as [x _ IH]; intros s Hs.
  destruct (decide (x = 0)%N) as [->|Hne]; [rewrite pretty_N_go_0; exact Hs|].
  rewrite pretty_N_go_step by lia.
  apply IH; [apply N.div_lt; lia|].
  apply numeral_cons. split; [apply pretty_N_char_numeral|exact Hs].
Qed.

Lemma pretty_N_go_longer (x : N) :
  forall s, (String.length s <= String.length (pretty_N_go x s))%nat.
Proof.
  induction (N.lt_wf_0 x) as [x _ IH]; intros s.
  destruct (decide (x = 0)%N) as [->|Hne]; [rewrite pretty_N_go_0; lia|].
  rewrite pretty_N_go_step by lia.
  etrans; [|apply IH; apply N.div_lt; lia]. simpl. lia.
Qed.

(** A positive number is printed without a leading zero. *)
Lemma pretty_N_go_head (x : N) :
  forall s, (0 < x)%N ->
    exists c rest, pretty_N_go x s = String c rest /\ c <> "0"%char /\ c <> "-"%char.
Proof.
  induction (N.lt_wf_0 x) as [x _ IH]; intros s Hpos.
  rewrite pretty_N_go_step by lia.
  destruct (decide (x `div` 10 = 0)%N) as [Hz|Hnz].
  - rewrite Hz, pretty_N_go_0. eexists _, _. split; [reflexivity|].
    assert (x < 10)%N by (apply N.div_small_iff in Hz; lia).
    rewrite N.mod_small by lia.
    assert (x = 1 \/ x = 2 \/ x = 3 \/ x = 4 \/ x = 5 \/ x = 6 \/ x = 7 \/ x = 8 \/ x = 9)%N
      as Hcases by lia.
    destruct Hcases as [->|[->|[->|[->|[->|[->|[->|[->| ->]]]]]]]]; split; discriminate.
  - apply IH; [apply N.div_lt; lia|apply N.neq_0_lt_0, Hnz].
Qed.

Lemma toString_numeral (n : Z) : numeral (toString n).
Proof.
  unfold toString, pretty, pretty_Z.
  destruct n as [|p|p].
  - apply numeral_cons. split; [reflexivity|constructor].
  - unfold pretty, pretty_positive, pretty, pretty_N.
    rewrite decide_False by discriminate. apply pretty_N_go_numeral. constructor.
  - apply (numeral_append "-"); [apply numeral_cons; split; [reflexivity|constructor]|].
    unfold pretty, pretty_positive, pretty, pretty_N.
    rewrite decide_False by discriminate. apply pretty_N_go_numeral. constructor.
Qed.

Lemma toString_nonneg_head (n : Z) :
  0 < n -> exists c rest, toString n = String c rest /\ c <> "0"%char /\ c <> "-"%char.
Proof.
  intros Hpos. destruct n as [|p|p]; try lia.
  unfold toString, pretty, pretty_Z, pretty, pretty_positive, pretty, pretty_N.
  rewrite decide_False by discriminate. apply pretty_N_go_head. lia.
Qed.

Lemma toString_length_two (n : Z) : 10 <= n -> (2 <= String.length (toString n))%nat.
Proof.
  intros Hn. destruct n as [|p|p]; try lia.
  unfold toString, pretty, pretty_Z, pretty, pretty_positive, pretty, pretty_N.
  rewrite decide_False by discriminate.
  rewrite pretty_N_go_step by lia.
  rewrite pretty_N_go_step by (apply N.div_str_pos; lia).
  etrans; [|apply pretty_N_go_longer]. simpl. lia.
Qed.

Lemma toString_negative (n : Z) :
  n < 0 -> exists rest, toString n = String "-" rest /\ rest <> EmptyString.
Proof.
  intros Hneg. destruct n as [|p|p]; try lia.
  exists (pretty p). split; [reflexivity|].
  destruct (toString_nonneg_head (Z.pos p) ltac:(lia)) as (c & rest & Heq & _).
  unfold toString in Heq. change (pretty (Z.pos p)) with (pretty p) in Heq.
  rewrite Heq. discriminate.
Qed.

(** The padded field of a number: one zero in front of a single digit, the
    number as printed otherwise. *)
Lemma padStart_field (n : Z) :
  padStart 2 "0" (toString n)
  = if decide (0 <= n < 10) then "0" +:+ toString n else toString n.
Proof.
  destruct (decide (0 <= n < 10)) as [Hsmall|Hbig].
  - destruct (padStart_two_digits n ltac:(lia)) as [Heq _]. rewrite Heq.
    destruct (Z.ltb_spec n 10); [reflexivity|lia].
  - apply padStart_long.
    destruct (Z.lt_ge_cases n 0) as [Hneg|Hnn].
    + destruct (toString_negative n Hneg) as (rest & -> & Hrest).
      destruct rest; [contradiction|]. simpl. lia.
    + apply toString_length_two. lia.
Qed.

Lemma padStart_field_numeral (n : Z) : numeral (padStart 2 "0" (toString n)).
Proof.
  rewrite padStart_field. destruct (decide _); [|apply toString_numeral].
  apply (numeral_append "0"); [|apply toString_numeral].
  apply numeral_cons. split; [reflexivity|constructor].
Qed.

Lemma padStart_field_inj (a b : Z) :
  padStart 2 "0" (toString a) = padStart 2 "0" (toString b) -> a = b.
Proof.
  assert (Hmixed : forall x y, 0 <= x < 10 -> ~ 0 <= y < 10 ->
            "0" +:+ toString x <> toString y).
  { intros x y Hx Hy Heq.
    destruct (Z.lt_ge_cases y 0) as [Hneg|Hnn].
    - destruct (toString_negative y Hneg) as (rest & Hy' & _).
      rewrite Hy' in Heq. discriminate.
    - destruct (toString_nonneg_head y ltac:(lia)) as (c & rest & Hy' & Hc & _).
      rewrite Hy' in Heq. injection Heq as Hc' _. congruence. }
  rewrite !padStart_field.
  destruct (decide (0 <= a < 10)) as [Ha|Ha], (decide (0 <= b < 10)) as [Hb|Hb]; intros Heq.
  - apply (inj (String.append "0")) in Heq. apply (inj pretty) in Heq. exact Heq.
  - exfalso. exact (Hmixed a b Ha Hb Heq).
  - exfalso. exact (Hmixed b a Hb Ha (eq_sym Heq)).
  - apply (inj pretty) in Heq. exact Heq.
Qed.

(** Two texts that continue after the same separator, which occurs in
    neither of them, are equal part by part. *)
Lemma separator_splits (c : ascii) (s1 s2 r1 r2 : string) :
  numeralChar c = false -> numeral s1 -> numeral s2 ->
  s1 +:+ String c r1 = s2 +:+ String c r2 -> s1 = s2 /\ r1 = r2.
Proof.
  intros Hc. revert s2. induction s1 as [|a s1 IH]; intros [|b s2] H1 H2 Heq.
  - injection Heq as ->. split; reflexivity.
  - rewrite append_cons in Heq. injection Heq as <- _.
    apply numeral_cons in H2 as [Hb _]. congruence.
  - rewrite append_cons in Heq. injection Heq as -> _.
    apply numeral_cons in H1 as [Ha _]. congruence.
  - rewrite !append_cons in Heq. injection Heq as -> Heq.
    apply numeral_cons in H1 as [_ H1]. apply numeral_cons in H2 as [_ H2].
    destruct (IH s2 H1 H2 Heq) as [-> ->]. split; reflexivity.
Qed.

Lemma formatRelativeTime_fields (ms1 ms2 : Z) :
  formatRelativeTime ms1 = formatRelativeTime ms2 ->
  hoursOf ms1 = hoursOf ms2 /\ minutesOf ms1 = minutesOf ms2
  /\ secondsOf ms1 = secondsOf ms2.
Proof.
  unfold formatRelativeTime. cbv zeta. intros Heq.
  apply (separator_splits "h") in Heq as [Hh Heq];
    [|reflexivity|apply toString_numeral..].
  apply (separator_splits "m") in Heq as [Hm Heq];
    [|reflexivity|apply toString_numeral..].
  apply (separator_splits "s") in Heq as [Hs _];
    [|reflexivity|apply toString_numeral..].
  unfold toString in *. repeat split; apply (inj pretty); assumption.
Qed.

Lemma formatRelativeTimeWithPadding_fields (ms1 ms2 : Z) :
  formatRelativeTimeWithPadding ms1 = formatRelativeTimeWithPadding ms2 ->
  hoursOf ms1 = hoursOf ms2 /\ minutesOf ms1 = minutesOf ms2
  /\ secondsOf ms1 = secondsOf ms2.
Proof.
  unfold formatRelativeTimeWithPadding. cbv zeta. intros Heq.
  apply (separator_splits ":") in Heq as [Hh Heq];
    [|reflexivity|apply padStart_field_numeral..].
  apply (separator_splits ":") in Heq as [Hm Hs];
    [|reflexivity|apply padStart_field_numeral..].
  repeat split; apply padStart_field_inj; assumption.
Qed.

(** X5. No two different instants share a timestamp. Two durations get the
    same deep-link timestamp exactly when they get the same subtitle
    timestamp, which is exactly when their hours, minutes and seconds agree;
    for durations that are not negative, that is exactly when they have the
    same whole seconds. *)
Theorem timestamps_distinguish_seconds (ms1 ms2 : Z) :
  let fields := fun ms => (hoursOf ms, minutesOf ms, secondsOf ms) in
  (formatRelativeTime ms1 = formatRelativeTime ms2 <-> fields ms1 = fields ms2)
  /\ (formatRelativeTimeWithPadding ms1 = formatRelativeTimeWithPadding ms2
      <-> fields ms1 = fields ms2)
  /\ (0 <= ms1 -> 0 <= ms2 ->
      (fields ms1 = fields ms2 <-> ms1 `div` 1000 = ms2 `div` 1000)).
Proof.
  intros fields. subst fields. cbv beta. split; [|split].
  - split.
    + intros Heq. destruct (formatRelativeTime_fields ms1 ms2 Heq) as (-> & -> & ->).
      reflexivity.
    + intros [= Hh Hm Hs]. unfold formatRelativeTime. cbv zeta. rewrite Hh, Hm, Hs.
      reflexivity.
  - split.
    + intros Heq.
      destruct (formatRelativeTimeWithPadding_fields ms1 ms2 Heq) as (-> & -> & ->).
      reflexivity.
    + intros [= Hh Hm Hs]. unfold formatRelativeTimeWithPadding. cbv zeta.
      rewrite Hh, Hm, Hs. reflexivity.
  - intros H1 H2.
    destruct (hms_split ms1 H1) as (Hh1 & Hm1 & Hs1 & Ht1).
    destruct (hms_split ms2 H2) as (Hh2 & Hm2 & Hs2 & Ht2).
    split.
    + intros [= Hh Hm Hs]. lia.
    + intros Heq. f_equal; [f_equal|]; lia.
Qed.

(** 85000 ms and 85999 ms share both timestamps; 85000 ms and 86000 ms
    share neither. *)
Lemma timestamps_distinguish_seconds_witness :
  formatRelativeTime 85000 = formatRelativeTime 85999
  /\ formatRelativeTimeWithPadding 85000 = formatRelativeTimeWithPadding 85999
  /\ formatRelativeTime 85000 <> formatRelativeTime 86000
  /\ formatRelativeTimeWithPadding 85000 <> formatRelativeTimeWithPadding 86000.
Proof.
  destruct (timestamps_distinguish_seconds 85000 85999) as (Hlink & Hsrt & Hsec).
  destruct (timestamps_distinguish_seconds 85000 86000) as (Hlink' & Hsrt' & Hsec').
  assert (Hsame : (hoursOf 85000, minutesOf 85000, secondsOf 85000)
                  = (hoursOf 85999, minutesOf 85999, secondsOf 85999))
    by (apply Hsec; [lia|lia|reflexivity]).
  assert (Hdiff : (hoursOf 85000, minutesOf 85000, secondsOf 85000)
                  <> (hoursOf 86000, minutesOf 86000, secondsOf 86000)).
  { intros Heq. apply Hsec' in Heq; [|lia|lia]. vm_compute in Heq. discriminate. }
  split; [apply Hlink, Hsame|]. split; [apply Hsrt, Hsame|].
  split; [intros Heq; apply Hdiff, Hlink', Heq|intros Heq; apply Hdiff, Hsrt', Heq].
Defined.

End Timestamps.

(** ** From a tag to the exports *)

Section TagToExport.

Lemma append_assoc (s t u : string) : (s +:+ t) +:+ u = s +:+ (t +:+ u).
Proof.
  induction s as [|a s IH]; [reflexivity|]. rewrite !append_cons, IH. reflexivity.
Qed.

Lemma mapIndexed_app {A B : Type} (f : A -> nat -> B) (index : nat) (l1 l2 : list A) :
  mapIndexed f index (l1 ++ l2)
  = mapIndexed f index l1 ++ mapIndexed f (index + length l1) l2.
Proof.
  revert index. induction l1 as [|x l1 IH]; intros index; cbn [mapIndexed app length].
  - rewrite Nat.add_0_r. reflexivity.
  - rewrite IH. replace (index + S (length l1))%nat with (S index + length l1)%nat by lia.
    reflexivity.
Qed.

Lemma mapIndexed_length {A B : Type} (f : A -> nat -> B) (index : nat) (l : list A) :
  length (mapIndexed f index l) = length l.
Proof.
  revert index. induction l as [|x l IH]; intros index; cbn [mapIndexed length];
    [reflexivity|]. rewrite IH. reflexivity.
Qed.

(** [join] of a list with one more element at the end. *)
Lemma join_snoc (sep : string) (parts : list string) (last : string) :
  join sep (parts ++ [last])
  = match parts with
    | [] => last
    | _ :: _ => join sep parts +:+ sep +:+ last
    end.
Proof.
  unfold join. induction parts as [|p parts IH]; [reflexivity|].
  cbn [app]. destruct parts as [|q parts].
  - reflexivity.
  - change (String.concat sep (p :: (q :: parts) ++ [last]))
      with (p +:+ sep +:+ String.concat sep ((q :: parts) ++ [last])).
    rewrite IH.
    change (String.concat sep (p :: q :: parts))
      with (p +:+ sep +:+ String.concat sep (q :: parts)).
    rewrite !append_assoc. reflexivity.
Qed.

Lemma arrayToString_snoc {A : Type} (f : A -> nat -> string) (l : list A) (x : A) :
  arrayToString (mapIndexed f 0 (l ++ [x]))
  = (match l with
     | [] => EmptyString
     | _ :: _ => arrayToString (mapIndexed f 0 l) +:+ ","
     end) +:+ f x (length l).
Proof.
  unfold arrayToString. rewrite mapIndexed_app. cbn [mapIndexed Nat.add].
  rewrite join_snoc. destruct l as [|y l]; [reflexivity|].
  cbn [mapIndexed]. rewrite append_assoc. reflexivity.
Qed.

(** A cue depends on the session only through its start time. *)
Lemma tagssrt_mapTag_start (s s' : Stream) (tag : StreamTag) (index : nat) :
  startTime s' = startTime s -> tagssrt.mapTag s' tag index = tagssrt.mapTag s tag index.
Proof. intros Heq. unfold tagssrt.mapTag, tagssrt.backfill. rewrite Heq. reflexivity. Qed.

Lemma mapIndexed_ext {A B : Type} (f g : A -> nat -> B) (index : nat) (l : list A) :
  (forall x i, f x i = g x i) -> mapIndexed f index l = mapIndexed g index l.
Proof.
  intros Hext. revert index. induction l as [|x l IH]; intros index; cbn [mapIndexed];
    [reflexivity|]. rewrite Hext, IH. reflexivity.
Qed.

(** X6. Recording a tag adds one entry at the end of each export and leaves
    the earlier entries as they were. For a session whose durable record is
    in step with memory and holds [n] tags, after a tag command whose write
    went through, the subtitle export is the earlier cues, a comma, and one
    new cue numbered [n + 1] that lasts 15 s; the deep-link export counts
    [n + 1] tags and ends with one new line numbered [n + 1] that links to
    the recorded offset. The new cue starts at the recorded offset, unless
    that offset is [0]: then it starts at the distance from the start of the
    session, with no delay taken off. *)
Theorem export_after_tag (getTwitchVodFromId : string -> option HelixVideo) (fs : Files)
    (vodid : string) (vod : HelixVideo) (s : Stream) (globalDelay now : Z)
    (userName : string) (params : list string) :
  emptyString vodid = false ->
  getTwitchVodFromId vodid = Some vod ->
  streamId vod = Some (id s) ->
  emptyString (id s) = false ->
  loadStream (id s) fs = Some s ->
  let offset := getTimeDifference now (startTime s) globalDelay in
  let shown := if offset =? 0 then getTimeDifference now (startTime s) 0 else offset in
  let number := toString (Z.of_nat (length (tags s)) + 1) in
  let text := join " " params in
  let cue := number +:+ nl +:+ formatRelativeTimeWithPadding shown +:+ ",000 --> "
             +:+ formatRelativeTimeWithPadding (shown + 15000) +:+ ",000" +:+ nl
             +:+ text +:+ nl +:+ nl in
  let line := number +:+ " - [`" +:+ formatRelativeTime offset +:+ "`](<" +:+ url vod
              +:+ "?t=" +:+ formatRelativeTime offset +:+ ">) : " +:+ text +:+ nl in
  let fs' := files (tagCommand globalDelay now userName params true
                      {| stream := Some s; files := fs |}).1 in
  tagssrt.execute getTwitchVodFromId fs' vodid
  = ReplyFile "tags.srt"
      ((match tags s with
        | [] => EmptyString
        | _ :: _ => arrayToString (mapIndexed (tagssrt.mapTag s) 0 (tags s)) +:+ ","
        end) +:+ cue)
  /\ tagstwitch.execute getTwitchVodFromId fs' vodid
     = ReplyText ("Tags del stream (" +:+ number +:+ "):" +:+ nl +:+ " > "
                  +:+ (match tags s with
                       | [] => EmptyString
                       | _ :: _ =>
                           arrayToString (mapIndexed (tagstwitch.mapTag vod) 0 (tags s))
                           +:+ ","
                       end) +:+ line).
Proof.
  intros Hid Hvod Hsid Hne Hload offset shown number text cue line fs'.
  set (tag := {| timestamp := now; relativeTime := formatRelativeTime offset;
                 relativeTimestamp := Some offset; moderator := userName;
                 message := text |}).
  set (s' := {| id := id s; startTime := startTime s; delay := delay s;
                vodDelay := vodDelay s; tags := tags s ++ [tag] |}).
  assert (Hfs' : loadStream (id s) fs' = Some s').
  { subst fs'. unfold tagCommand, saveStream, writeFile, loadStream.
    cbn [stream fst snd files id]. apply lookup_insert_eq. }
  assert (Hcue : tagssrt.mapTag s tag (length (tags s)) = cue).
  { unfold tagssrt.mapTag, tagssrt.backfill, tagssrt.offsetOf, falsyNumber.
    cbn [relativeTimestamp tag]. subst cue shown number.
    destruct (offset =? 0); cbn [relativeTimestamp message default timestamp];
      rewrite Nat2Z.inj_0 || idtac; reflexivity. }
  assert (Hcount : Z.of_nat (length (tags s ++ [tag])) = Z.of_nat (length (tags s)) + 1).
  { rewrite length_app. cbn [length]. lia. }
  split.
  - unfold tagssrt.execute, noStreamId. rewrite Hid, Hvod, Hsid, Hne.
    change (default "" (Some (id s))) with (id s).
    rewrite Hfs'. cbn [tags s'].
    replace (length (tags s ++ [tag]) =? 0)%nat with false
      by (symmetry; apply Nat.eqb_neq; rewrite length_app; cbn [length]; lia).
    rewrite (mapIndexed_ext (tagssrt.mapTag s') (tagssrt.mapTag s))
      by (intros x i; apply tagssrt_mapTag_start; reflexivity).
    rewrite arrayToString_snoc, Hcue. reflexivity.
  - unfold tagstwitch.execute, noStreamId. rewrite Hid, Hvod, Hsid, Hne.
    change (default "" (Some (id s))) with (id s).
    rewrite Hfs'. cbn [tags s']. rewrite Hcount, arrayToString_snoc.
    reflexivity.
Qed.

End TagToExport.

(** A session with one tag on disk; a second tag 100 s after the start,
    with 15 s of delay. *)
Lemma export_after_tag_witness :
  let old := {| timestamp := 1010000; relativeTime := "0h0m10s";
                relativeTimestamp := Some 10000; moderator := "mod"; message := "intro" |} in
  let s := {| id := "s1"; startTime := 1000000; delay := 15; vodDelay := 15;
              tags := [old] |} in
  let vod := {| video_id := "v1"; url := "https://www.twitch.tv/videos/v1";
                streamId := Some "s1" |} in
  let lookup := fun vodid : string => if String.eqb vodid "v1" then Some vod else None in
  let fs : Files := {[ tagsPath "s1" := s ]} in
  let fs' := files (tagCommand 15 1100000 "mod" ["nice"; "clip"] true
                      {| stream := Some s; files := fs |}).1 in
  tagssrt.execute lookup fs' "v1"
  = ReplyFile "tags.srt"
      ("1" +:+ nl +:+ "00:00:10,000 --> 00:00:25,000" +:+ nl +:+ "intro" +:+ nl +:+ nl
       +:+ "," +:+
       "2" +:+ nl +:+ "00:01:25,000 --> 00:01:40,000" +:+ nl +:+ "nice clip" +:+ nl +:+ nl).
Proof.
  intros old s vod lookup fs fs'.
  destruct (export_after_tag lookup fs "v1" vod s 15 1100000 "mod" ["nice"; "clip"])
    as [Hsrt _]; [reflexivity..|].
  exact Hsrt.
Defined.

(** ** When the subtitle export sends a file *)

Section SubtitleFile.

Variable getTwitchVodFromId : string -> option HelixVideo.

Lemma arrayToString_head (first : string) (others : list string) :
  exists rest, arrayToString (first :: others) = first +:+ rest.
Proof.
  unfold arrayToString, join. destruct others as [|second others].
  - exists EmptyString. cbn [String.concat].
    induction first as [|a first IH]; [reflexivity|].
    rewrite append_cons, <- IH. reflexivity.
  - eexists. reflexivity.
Qed.

(** X7. The subtitle export sends a file exactly when the recording is
    found, belongs to a stream, and that stream has a durable record with at
    least one tag. The file is then named tags.srt and is never empty: it
    starts with cue number 1. In every other case the answer is a text. *)
Theorem tagssrt_sends_file (fs : Files) (vodid : string) :
  ((exists name content,
       tagssrt.execute getTwitchVodFromId fs vodid = ReplyFile name content)
   <-> (exists vod sid s,
          emptyString vodid = false
          /\ getTwitchVodFromId vodid = Some vod
          /\ streamId vod = Some sid /\ emptyString sid = false
          /\ loadStream sid fs = Some s
          /\ tags s <> []))
  /\ forall name content,
       tagssrt.execute getTwitchVodFromId fs vodid = ReplyFile name content ->
       name = "tags.srt" /\ exists rest, content = "1" +:+ nl +:+ rest.
Proof.
  unfold tagssrt.execute, noStreamId.
  destruct (emptyString vodid) eqn:Hid.
  { split; [split|]; [intros (? & ? & [=])|intros (? & ? & ? & [=] & _)|intros ? ? [=]]. }
  destruct (getTwitchVodFromId vodid) as [vod|] eqn:Hvod.
  2:{ split; [split|]; [intros (? & ? & [=])|intros (? & ? & ? & _ & [=] & _)|intros ? ? [=]]. }
  destruct (streamId vod) as [sid|] eqn:Hsid.
  2:{ split; [split|];
        [intros (? & ? & [=])|intros (? & ? & ? & _ & [= <-] & Hs & _); congruence
        |intros ? ? [=]]. }
  destruct (emptyString sid) eqn:Hne.
  { split; [split|];
      [intros (? & ? & [=])
      |intros (? & ? & ? & _ & [= <-] & Hs & Hne' & _); congruence|intros ? ? [=]]. }
  change (default "" (Some sid)) with sid.
  destruct (loadStream sid fs) as [s|] eqn:Hload.
  2:{ split; [split|];
        [intros (? & ? & [=])
        |intros (? & ? & ? & _ & [= <-] & Hs & _ & Hl & _); congruence|intros ? ? [=]]. }
  destruct (tags s) as [|tag others] eqn:Htags.
  { cbn [length Nat.eqb]. split; [split|];
      [intros (? & ? & [=])
      |intros (? & ? & s0 & _ & [= <-] & Hs & _ & Hl & Ht); congruence|intros ? ? [=]]. }
  cbn [length Nat.eqb mapIndexed]. split; [split|].
  - intros _. exists vod, sid, s. rewrite Htags. repeat split; try assumption. discriminate.
  - intros _. eexists _, _. reflexivity.
  - intros name content [= <- <-]. split; [reflexivity|].
    destruct (arrayToString_head (tagssrt.mapTag s tag 0)
                (mapIndexed (tagssrt.mapTag s) 1 others)) as (rest & ->).
    unfold tagssrt.mapTag. eexists. rewrite !append_assoc. reflexivity.
Qed.

End SubtitleFile.

(** ** Who the [vip] and [unvip] commands act for, and on whom *)

Section VipCommands.

Lemma removeFirst_absent (c : ascii) (s : string) :
  ~ In c (list_ascii_of_string s) -> removeFirst c s = s.
Proof.
  induction s as [|a s IH]; [reflexivity|].
  cbn [list_ascii_of_string removeFirst In]. intros Hnot.
  destruct (Ascii.eqb_spec a c) as [->|_]; [exfalso; apply Hnot; left; reflexivity|].
  rewrite IH; [reflexivity|]. intros Hin. apply Hnot. right. exact Hin.
Qed.

(** X8. The chat API is called only for a moderator or the broadcaster
    who named somebody: the call is then for the broadcaster's channel and
    for the first word with its first at-sign removed. [vip] never removes
    and [unvip] never adds. A handler replies at most once, and anybody else
    gets the moderators-only reply and nothing more. *)
Theorem vip_only_for_moderators (broadcaster : string) (isMod isBroadcaster : bool)
    (params : list string) (outcome : ApiOutcome) :
  let vip := vipCommand broadcaster isMod isBroadcaster params outcome in
  let unvip := unvipCommand broadcaster isMod isBroadcaster params outcome in
  (forall channel username,
      In (AddVip channel username) vip \/ In (RemoveVip channel username) unvip ->
      (isMod = true \/ isBroadcaster = true)
      /\ channel = broadcaster
      /\ exists first others, params = first :: others /\ username = removeFirst "@" first)
  /\ (forall channel username,
        ~ In (RemoveVip channel username) vip /\ ~ In (AddVip channel username) unvip)
  /\ (length (vipReplies vip) <= 1)%nat
  /\ (length (vipReplies unvip) <= 1)%nat
  /\ (isMod = false -> isBroadcaster = false ->
      vip = [VipReply modError] /\ unvip = [VipReply modError]).
Proof.
  intros vip unvip. subst vip unvip. unfold vipCommand, unvipCommand.
  destruct isMod, isBroadcaster; cbn [orb negb];
    try (destruct params as [|first others];
         [|destruct outcome as [|message0|];
           [| destruct (includes message0 "already VIP"), (includes message0 "not found") |]]);
    cbn [In vipReplies omap list_omap length];
    (split; [|split; [|split; [|split; [|split]]]]);
    try lia; try (intros; discriminate); try reflexivity;
    try (intros channel username; split; intros Hin; intuition discriminate);
    intros channel username Hin.
  all: try (exfalso; intuition discriminate).
  all: assert (Heq : channel = broadcaster /\ username = removeFirst "@" first)
         by (intuition congruence);
       destruct Heq as [-> ->]; (split; [auto|]); (split; [reflexivity|]);
       eexists _, _; split; reflexivity.
Qed.

(** X9. Naming somebody with or without the at-sign is the same command,
    and the words after the first are ignored, when the name itself holds no
    at-sign. *)
Theorem vip_at_sign_optional (broadcaster : string) (isMod isBroadcaster : bool)
    (name : string) (others : list string) (outcome : ApiOutcome) :
  ~ In "@"%char (list_ascii_of_string name) ->
  vipCommand broadcaster isMod isBroadcaster (("@" +:+ name) :: others) outcome
  = vipCommand broadcaster isMod isBroadcaster [name] outcome
  /\ unvipCommand broadcaster isMod isBroadcaster (("@" +:+ name) :: others) outcome
     = unvipCommand broadcaster isMod isBroadcaster [name] outcome.
Proof.
  intros Hname. unfold vipCommand, unvipCommand.
  change ("@" +:+ name) with (String "@" name). cbn [removeFirst Ascii.eqb].
  change (Ascii.eqb "@" "@") with true. cbv iota.
  rewrite (removeFirst_absent _ _ Hname). split; reflexivity.
Qed.

End VipCommands.

(** [!vip @ana por favor] by a moderator is [!vip ana]. *)
Lemma vip_at_sign_optional_witness :
  vipCommand "boshi" true false ["@ana"; "por"; "favor"] ApiReturned
  = [AddVip "boshi" "ana"; VipReply ("Se le agregó VIP a @" +:+ "ana" +:+ "!")].
Proof.
  destruct (vip_at_sign_optional "boshi" true false "ana" ["por"; "favor"] ApiReturned)
    as [Hvip _].
  - cbn. intros [H|[H|[H|[]]]]; discriminate H.
  - etrans; [exact Hvip|reflexivity].
Defined.

(** ** Which messages the mention moderation deletes *)

Section MentionModeration.

Variable cfg : ModerationConfig.

Lemma listIncludes_In (ids : list string) (x : string) :
  listIncludes ids x = true <-> In x ids.
Proof.
  unfold listIncludes. rewrite existsb_exists. split.
  - intros (y & Hin & Heq). apply String.eqb_eq in Heq. subst y. exact Hin.
  - intros Hin. exists x. split; [exact Hin|apply String.eqb_refl].
Qed.

Lemma someRoleIn_spec (ids : list string) (roles : option (list string)) :
  someRoleIn ids roles = true
  <-> exists held role, roles = Some held /\ In role held /\ In role ids.
Proof.
  destruct roles as [held|]; cbn [someRoleIn].
  - rewrite existsb_exists. split.
    + intros (role & Hin & Hids). apply listIncludes_In in Hids. eauto.
    + intros (held' & role & [= <-] & Hin & Hids). exists role.
      split; [exact Hin|apply listIncludes_In, Hids].
  - split; [discriminate|intros (? & ? & [=] & _)].
Qed.

Lemma hasAllowedRole_spec (m : DiscordMessage) :
  hasAllowedRole cfg m = true
  <-> exists held role,
        message_memberRoles m = Some held /\ In role held /\ In role (ALLOWED_ROLE_IDS cfg).
Proof.
  unfold hasAllowedRole. destruct (ALLOWED_ROLE_IDS cfg) as [|allowed others] eqn:Hallowed.
  - cbn. split; [discriminate|intros (? & ? & _ & _ & [])].
  - cbn [length Nat.eqb]. apply someRoleIn_spec.
Qed.

Lemma mentions_spec (m : DiscordMessage) :
  match message_mentions m with
  | Some members =>
      existsb (fun roles => someRoleIn (TARGET_USER_ROLES cfg) (Some roles)) members
  | None => false
  end = true
  <-> exists members held role,
        message_mentions m = Some members /\ In held members
        /\ In role held /\ In role (TARGET_USER_ROLES cfg).
Proof.
  destruct (message_mentions m) as [members|].
  - rewrite existsb_exists. split.
    + intros (held & Hin & Hsome). apply someRoleIn_spec in Hsome.
      destruct Hsome as (held' & role & [= <-] & Hrole & Htarget). eauto 8.
    + intros (members' & held & role & [= <-] & Hin & Hrole & Htarget).
      exists held. split; [exact Hin|]. apply someRoleIn_spec. eauto.
  - split; [discriminate|intros (? & ? & ? & [=] & _)].
Qed.

(** X10. A message is deleted exactly when its author is no bot, it
    mentions a member who holds a target role, its channel is not
    whitelisted, its author holds no allowed role, and the warning, the note
    to the moderators and the deletion itself all went through. The deletion
    is then the last thing done, after the warning and the note, and the
    warning is the one for replies only if the message replied to could be
    fetched and its author holds a target role. *)
Theorem message_deleted_iff (m : DiscordMessage) (replyOk logOk deleteOk : bool) :
  let effects := onMessageCreate cfg m replyOk logOk deleteOk in
  (In DeleteMessage effects
   <-> message_authorIsBot m = false
       /\ (exists members held role,
             message_mentions m = Some members /\ In held members
             /\ In role held /\ In role (TARGET_USER_ROLES cfg))
       /\ ~ In (message_channelId m) (WHITELISTED_CHANNEL_IDS cfg)
       /\ (forall held role, message_memberRoles m = Some held -> In role held ->
             ~ In role (ALLOWED_ROLE_IDS cfg))
       /\ replyOk = true /\ logOk = true /\ deleteOk = true)
  /\ (In DeleteMessage effects ->
      exists before isReply,
        effects = before ++ [WarningReply isReply; ModLog; DeleteMessage])
  /\ (In (WarningReply true) effects ->
      exists held role,
        message_reference m = Some (Fetched (Some held))
        /\ In role held /\ In role (TARGET_USER_ROLES cfg)).
Proof.
  intros effects. subst effects.
  unfold onMessageCreate, checkIfForbiddenMention, handleMaiMention.
  pose proof (mentions_spec m) as Hmentions.
  pose proof (listIncludes_In (WHITELISTED_CHANNEL_IDS cfg) (message_channelId m)) as Hchannel.
  pose proof (hasAllowedRole_spec m) as Hexempt.
  assert (Hreply : forall isReply fetchError,
             match message_reference m with
             | None => (false, [])
             | Some FetchThrew => (false, [ModerationError])
             | Some (Fetched roles) => (someRoleIn (TARGET_USER_ROLES cfg) roles, [])
             end = (isReply, fetchError) ->
             ~ In DeleteMessage fetchError
             /\ ~ In (WarningReply true) fetchError
             /\ (isReply = true -> exists held role,
                   message_reference m = Some (Fetched (Some held))
                   /\ In role held /\ In role (TARGET_USER_ROLES cfg))).
  { intros isReply fetchError.
    destruct (message_reference m) as [[|roles]|]; intros [= <- <-].
    - cbn. intuition discriminate.
    - split; [intros []|]. split; [intros []|]. intros Hsome.
      apply someRoleIn_spec in Hsome. destruct Hsome as (held & role & -> & Hin & Htarget).
      eauto.
    - split; [intros []|]. split; [intros []|]. discriminate. }
  destruct (message_authorIsBot m).
  { cbn [In]. split; [|split]; [|intros []|intros []].
    split; [intros []|intros (Hbot & _); discriminate Hbot]. }
  destruct (match message_mentions m with Some _ => _ | None => _ end).
  2:{ cbn [In]. split; [|split]; [|intros []|intros []].
      split; [intros []|]. intros (_ & Hm & _). apply Hmentions in Hm. discriminate Hm. }
  destruct (listIncludes (WHITELISTED_CHANNEL_IDS cfg) (message_channelId m)).
  { cbn [negb andb In]. split; [|split]; [|intros []|intros []].
    split; [intros []|]. intros (_ & _ & Hc & _). exfalso. apply Hc, Hchannel. reflexivity. }
  destruct (hasAllowedRole cfg m).
  { cbn [negb andb In]. split; [|split]; [|intros []|intros []].
    split; [intros []|]. intros (_ & _ & _ & Hroles & _). exfalso.
    destruct (proj1 Hexempt eq_refl) as (held & role & Hheld & Hin & Hallowed).
    exact (Hroles held role Hheld Hin Hallowed). }
  cbn [negb andb].
  destruct (match message_reference m with Some _ => _ | None => _ end)
    as [isReply fetchError] eqn:Hfetched.
  destruct (Hreply isReply fetchError eq_refl) as (Hnodelete & Hnowarning & HisReply).
  assert (Hnotexempt : forall held role, message_memberRoles m = Some held -> In role held ->
            ~ In role (ALLOWED_ROLE_IDS cfg)).
  { intros held role Hheld Hin Hallowed.
    assert (Htrue : false = true) by (apply Hexempt; eauto). discriminate Htrue. }
  assert (Hnotlisted : ~ In (message_channelId m) (WHITELISTED_CHANNEL_IDS cfg)).
  { intros Hin. apply Hchannel in Hin. discriminate Hin. }
  destruct replyOk, logOk, deleteOk; cbn [negb]; rewrite ?in_app_iff; cbn [In].
  all: split; [|split].
  all: try (split; [intros [Hin|Hin]; [contradiction|intuition discriminate]
                   |intros (_ & _ & _ & _ & ? & ? & ?); discriminate]).
  all: try (intros [Hin|Hin]; [contradiction|exfalso; intuition discriminate]).
  all: try (intros [Hin|Hin]; [contradiction|]; apply HisReply;
            destruct Hin as [[= ->]|Hin]; [reflexivity|exfalso; intuition discriminate]).
  - split; [intros _|intros _; right; auto].
    split; [reflexivity|]. split; [apply Hmentions; reflexivity|]. auto.
  - intros _. exists fetchError, isReply. reflexivity.
Qed.

End MentionModeration.

(** ** What a refresh changes *)

Section RefreshEffects.
Context {C : AeadCipher} {Store : Type} {TS : TokenStorage Store}.

(** X11. When the provider answers but the store refuses the record, the
    client holds the new pair in memory while the store is as it was: no
    handler is told, the chat connection keeps the token it was made with,
    the key is the same, and three draws were consumed. *)
Theorem refreshToken_store_refused (run : RefreshRun) (c : Client) (st : Store)
    (e : Entropy) (data : TokenResponse) :
  response run = Some data ->
  (forall tokens, save tokens st = None) ->
  let result := refreshToken run c st e in
  currentToken result.1.1 = access_token data
  /\ config_refreshToken result.1.1 = refresh_token data
  /\ result.1.2 = st
  /\ notifiedTokens result.1.1 = notifiedTokens c
  /\ clientToken result.1.1 = clientToken c
  /\ isConnected result.1.1 = isConnected c
  /\ reconnectTimers result.1.1 = reconnectTimers c
  /\ tokenEncryption result.1.1 = tokenEncryption c
  /\ cursor result.2 = (cursor e + 3)%nat.
Proof.
  intros Hresp Hsave result. subst result. unfold refreshToken.
  rewrite Hresp, saveTokens_record, Hsave. cbn.
  repeat split; lia.
Qed.

(** X12. When the provider answers and the store takes the record, the
    client holds the new pair, the handlers are told it once, and the store
    gives back a record of it that expires [expires_in] seconds after the
    save. The chat client is made anew for the new token only if the old
    connection could be closed; otherwise it keeps the old token. The client
    counts as connected when closing and opening both went through, and a
    reconnect is armed when one of them did not. *)
Theorem refreshToken_adopts {HS : TokenStorageCorrect Store} (run : RefreshRun)
    (c : Client) (st : Store) (e : Entropy) (data : TokenResponse) :
  response run = Some data ->
  (forall tokens, is_Some (save tokens st)) ->
  let result := refreshToken run c st e in
  currentToken result.1.1 = access_token data
  /\ config_refreshToken result.1.1 = refresh_token data
  /\ notifiedTokens result.1.1 = notifiedTokens c ++ [(access_token data, refresh_token data)]
  /\ tokenEncryption result.1.1 = tokenEncryption c
  /\ isConnected result.1.1 = disconnectOk run && connectOk run
  /\ clientToken result.1.1
     = (if disconnectOk run then access_token data else clientToken c)
  /\ reconnectTimers result.1.1
     = (if disconnectOk run && connectOk run then reconnectTimers c
        else S (reconnectTimers c))
  /\ exists r,
       load result.1.2 = Some r
       /\ EncryptedTokens.expiresAt r = clockAtSave run + expires_in data * 1000
       /\ EncryptedTokens.accessToken r
          = encrypted (encryptWith (tokenEncryption c) (drawAt e 1) (access_token data))
       /\ EncryptedTokens.refreshToken r
          = encrypted (encryptWith (tokenEncryption c) (drawAt e 2) (refresh_token data)).
Proof.
  intros Hresp Hsave result. subst result. unfold refreshToken.
  rewrite Hresp, saveTokens_record.
  match goal with |- context [save ?tokens st] =>
    destruct (Hsave tokens) as [st' Hst']; rewrite Hst' end.
  cbn [fst snd]. unfold reconnectWithNewToken, disconnect, connect, handleDisconnect.
  destruct (disconnectOk run), (connectOk run); cbn;
    (repeat (split; [reflexivity|]));
    eexists; (split; [exact (load_save _ _ _ Hst')|]); repeat split.
Qed.

End RefreshEffects.

(** The refresh of [Sample.run] against a token file that refuses
    writes. *)
Lemma refreshToken_store_refused_witness :
  let result := refreshToken Sample.run Sample.client Sample2.readOnlyStore Sample.entropy in
  currentToken result.1.1 = "new-access"
  /\ result.1.2 = Sample2.readOnlyStore
  /\ clientToken result.1.1 = "initial-access".
Proof.
  intros result.
  destruct (refreshToken_store_refused Sample.run Sample.client Sample2.readOnlyStore
              Sample.entropy _ eq_refl) as (Hcurrent & _ & Hstore & _ & Hclient & _).
  { intros tokens. reflexivity. }
  split; [exact Hcurrent|]. split; [exact Hstore|exact Hclient].
Defined.

(** The same refresh against a token file that takes writes. *)
Lemma refreshToken_adopts_witness :
  let result := refreshToken Sample.run Sample.client Sample.store Sample.entropy in
  currentToken result.1.1 = "new-access"
  /\ notifiedTokens result.1.1 = [("new-access", "new-refresh")]
  /\ clientToken result.1.1 = "new-access"
  /\ isConnected result.1.1 = true.
Proof.
  intros result.
  destruct (refreshToken_adopts (HS := fileTokenStorage_correct) Sample.run Sample.client
              Sample.store Sample.entropy _ eq_refl)
    as (Hcurrent & _ & Hnotified & _ & Hconnected & Hclient & _).
  { intros tokens. cbn. eexists. reflexivity. }
  split; [exact Hcurrent|]. split; [exact Hnotified|]. split; [exact Hclient|exact Hconnected].
Defined.

(** ** What no operation of the client changes *)

Section Carried.
Context {C : AeadCipher} {Store : Type} {TS : TokenStorage Store}.

Lemma carriedOver_refl (ops : list ClientOp) (c : Client) (e : Entropy) :
  carriedOver ops c e c e.
Proof.
  unfold carriedOver. repeat split; try reflexivity; try lia.
  exists []. split; [symmetry; apply app_nil_r|intros pair []].
Qed.

Lemma carriedOver_trans (op : ClientOp) (ops : list ClientOp) (c c1 c2 : Client)
    (e e1 e2 : Entropy) :
  carriedOver [op] c e c1 e1 -> carriedOver ops c1 e1 c2 e2 ->
  carriedOver (op :: ops) c e c2 e2.
Proof.
  intros (Hr1 & Ht1 & (more1 & Hn1 & Hi1) & Hk1 & Hp1 & Hc1 & He1)
         (Hr2 & Ht2 & (more2 & Hn2 & Hi2) & Hk2 & Hp2 & Hc2 & He2).
  unfold carriedOver. split; [congruence|]. split; [congruence|]. split.
  { exists (more1 ++ more2). split; [rewrite Hn2, Hn1, app_assoc; reflexivity|].
    intros pair Hin. apply in_app_or in Hin. destruct Hin as [Hin|Hin].
    - destruct (Hi1 pair Hin) as (op' & [<-|[]] & Hissued).
      exists op. split; [left; reflexivity|exact Hissued].
    - destruct (Hi2 pair Hin) as (op' & Hop & Hissued).
      exists op'. split; [right; exact Hop|exact Hissued]. }
  split; [lia|]. split; [congruence|]. split; [lia|].
  intros Hnone. rewrite He2, He1; [reflexivity| |].
  - intros newKey now [Heq|[]]. apply (Hnone newKey now). left. exact Heq.
  - intros newKey now Hin. apply (Hnone newKey now). right. exact Hin.
Qed.

Lemma refreshToken_carriedOver (op : ClientOp) (run : RefreshRun) (c : Client)
    (st : Store) (e : Entropy) :
  (forall data, response run = Some data ->
     In (access_token data, refresh_token data) (issuedBy op)) ->
  carriedOver [op] c e (refreshToken run c st e).1.1 (refreshToken run c st e).2.
Proof.
  intros Hissued. unfold refreshToken.
  destruct (response run) as [data|].
  2:{ unfold carriedOver. cbn. repeat split; try lia.
      exists []. split; [symmetry; apply app_nil_r|intros pair []]. }
  rewrite saveTokens_record. destruct (save _ st) as [st'|]; cbn [fst snd].
  - unfold carriedOver, reconnectWithNewToken, disconnect, connect, handleDisconnect.
    destruct (disconnectOk run), (connectOk run); cbn;
      (split; [reflexivity|]); (split; [reflexivity|]);
      (split; [eexists; split; [reflexivity|];
               intros pair [<-|[]]; exists op; split; [left; reflexivity|];
               apply Hissued; reflexivity|]);
      repeat split; lia.
  - unfold carriedOver. cbn. repeat split; try lia.
    exists []. split; [symmetry; apply app_nil_r|intros pair []].
Qed.

Lemma applyOp_carriedOver (op : ClientOp) (c : Client) (st : Store) (e : Entropy) :
  carriedOver [op] c e (applyOp (c, st, e) op).1.1 (applyOp (c, st, e) op).2.
Proof.
  destruct op as [now run|run|newKey now]; cbn [applyOp].
  - unfold initializeTokens.
    destruct (load st) as [stored|]; [|apply carriedOver_refl].
    destruct (decrypt _ (EncryptedTokens.accessToken stored) _); [|apply carriedOver_refl].
    destruct (decrypt _ (EncryptedTokens.refreshToken stored) _); [|apply carriedOver_refl].
    destruct (now <? EncryptedTokens.expiresAt stored).
    + unfold carriedOver. cbn. repeat split; try lia.
      exists []. split; [symmetry; apply app_nil_r|intros pair []].
    + apply refreshToken_carriedOver. intros data Hresp. cbn [issuedBy].
      rewrite Hresp. left. reflexivity.
  - apply refreshToken_carriedOver. intros data Hresp. cbn [issuedBy].
    rewrite Hresp. left. reflexivity.
  - unfold rotateEncryptionKey. rewrite saveTokens_record.
    destruct (save _ st) as [st'|]; unfold carriedOver; cbn; repeat split; try lia.
    + exists []. split; [symmetry; apply app_nil_r|intros pair []].
    + intros Hnone. exfalso. apply (Hnone newKey now). left. reflexivity.
    + exists []. split; [symmetry; apply app_nil_r|intros pair []].
    + intros Hnone. exfalso. apply (Hnone newKey now). left. reflexivity.
Qed.

(** X13. Whatever start-ups, refreshes and key rotations run, in any
    order and with any outcomes: the reconnect interval and the refresh
    interval stay as configured; the refresh handlers are only ever told
    pairs the provider issued in one of these runs, after what they had been
    told before; reconnects armed are not taken back; the entropy source
    only moves forward; and the key stays the same as long as no rotation
    ran. *)
Theorem applyOps_invariants (ops : list ClientOp) (c : Client) (st : Store) (e : Entropy) :
  let result := applyOps ops (c, st, e) in
  reconnectInterval result.1.1 = reconnectInterval c
  /\ tokenRefreshInterval result.1.1 = tokenRefreshInterval c
  /\ (exists more,
        notifiedTokens result.1.1 = notifiedTokens c ++ more
        /\ forall pair, In pair more -> exists op, In op ops /\ In pair (issuedBy op))
  /\ (reconnectTimers c <= reconnectTimers result.1.1)%nat
  /\ pool result.2 = pool e
  /\ (cursor e <= cursor result.2)%nat
  /\ ((forall newKey now, ~ In (OpRotate newKey now) ops) ->
      tokenEncryption result.1.1 = tokenEncryption c).
Proof.
  intros result. subst result.
  change (carriedOver ops c e (applyOps ops (c, st, e)).1.1 (applyOps ops (c, st, e)).2).
  unfold applyOps. revert c st e.
  induction ops as [|op ops IH]; intros c st e; [apply carriedOver_refl|].
  cbn [fold_left]. pose proof (applyOp_carriedOver op c st e) as Hstep.
  destruct (applyOp (c, st, e) op) as [[c1 st1] e1]. cbn [fst snd] in Hstep.
  exact (carriedOver_trans op ops c c1 _ e e1 _ Hstep (IH c1 st1 e1)).
Qed.

(** X14. Once the constructor is through, the refresh timer is the one
    armed at the end with the configured refresh interval, also when the
    start-up ran a refresh that had armed it from the lifetime of the new
    token. The client counts as connected exactly when the connection could
    be opened, and a reconnect is armed when it could not. *)
Theorem startUp_arms_configured_interval (now : Z) (run : RefreshRun) (connected : bool)
    (clockAtStart : Z) (c : Client) (st : Store) (e : Entropy) :
  let c' := (startUp now run connected clockAtStart c st e).1.1 in
  let initialized := (initializeTokens now run c st e).1.1 in
  tokenRefreshTimeout c'
  = Some {| timer_armedAt := clockAtStart; timer_interval := tokenRefreshInterval c |}
  /\ isConnected c' = connected
  /\ reconnectTimers c'
     = (if connected then reconnectTimers initialized else S (reconnectTimers initialized))
  /\ currentToken c' = currentToken initialized
  /\ config_refreshToken c' = config_refreshToken initialized.
Proof.
  intros c' initialized. subst c' initialized. unfold startUp.
  pose proof (applyOp_carriedOver (OpInitialize now run) c st e) as (_ & Hinterval & _).
  cbn [applyOp] in Hinterval.
  destruct (initializeTokens now run c st e) as [[c1 st1] e1].
  cbn [fst snd] in Hinterval |- *. unfold connect, handleDisconnect.
  destruct connected; cbn; rewrite Hinterval; repeat split.
Qed.

(** X15. A key rotation replaces the key of the client before it writes,
    so also when the store then refuses the record: the store is then as it
    was while the client holds the new key. In both cases the tokens, the
    refresh timer, the connection and what the handlers were told are
    untouched; when the store takes the record, it gives back a record that
    seals the tokens the client holds under the new key. *)
Theorem rotateEncryptionKey_effects {HS : TokenStorageCorrect Store} (newKey : string)
    (now : Z) (c : Client) (st : Store) (e : Entropy) :
  let result := rotateEncryptionKey newKey now c st e in
  let c' := result.1.1.1 in
  tokenEncryption c' = newTokenEncryption newKey
  /\ currentToken c' = currentToken c
  /\ config_refreshToken c' = config_refreshToken c
  /\ tokenRefreshTimeout c' = tokenRefreshTimeout c
  /\ isConnected c' = isConnected c
  /\ clientToken c' = clientToken c
  /\ notifiedTokens c' = notifiedTokens c
  /\ (result.2 = false -> result.1.1.2 = st)
  /\ (result.2 = true ->
      exists r,
        load result.1.1.2 = Some r
        /\ EncryptedTokens.accessToken r
           = encrypted (encryptWith (newTokenEncryption newKey) (drawAt e 1) (currentToken c))
        /\ EncryptedTokens.refreshToken r
           = encrypted (encryptWith (newTokenEncryption newKey) (drawAt e 2)
                          (config_refreshToken c))).
Proof.
  intros result c'. subst c' result. unfold rotateEncryptionKey.
  rewrite saveTokens_record. destruct (save _ st) as [st'|] eqn:Hsave; cbn [fst snd].
  - repeat (split; [reflexivity|]). split; [discriminate|]. intros _.
    eexists. split; [exact (load_save _ _ _ Hsave)|]. split; reflexivity.
  - repeat (split; [reflexivity|]). discriminate.
Qed.

End Carried.

(** A rotation against a token file that refuses writes, and against one
    that takes them. *)
Lemma rotateEncryptionKey_effects_witness :
  let refused := rotateEncryptionKey "rotated" 2000000 Sample.client Sample2.readOnlyStore
                   Sample.entropy in
  let taken := rotateEncryptionKey "rotated" 2000000 Sample.client Sample.store
                 Sample.entropy in
  tokenEncryption refused.1.1.1 = newTokenEncryption (C := StandIn.cipher) "rotated"
  /\ refused.1.1.2 = Sample2.readOnlyStore
  /\ is_Some (load taken.1.1.2).
Proof.
  intros refused taken.
  destruct (rotateEncryptionKey_effects (HS := fileTokenStorage_correct) "rotated" 2000000
              Sample.client Sample2.readOnlyStore Sample.entropy)
    as (Hkey & _ & _ & _ & _ & _ & _ & Hrefused & _).
  destruct (rotateEncryptionKey_effects (HS := fileTokenStorage_correct) "rotated" 2000000
              Sample.client Sample.store Sample.entropy)
    as (_ & _ & _ & _ & _ & _ & _ & _ & Htaken).
  split; [exact Hkey|]. split; [exact (Hrefused eq_refl)|].
  destruct (Htaken eq_refl) as (r & Hload & _). exists r. exact Hload.
Defined.

(** ** Start-up on the record of a save *)

Section SavedRecord.
Context {C : AeadCipher} {HC : AeadCorrect C} {Store : Type} {TS : TokenStorage Store}
  {HS : TokenStorageCorrect Store}.

(** X16. Start-up on the record of a save, with the key of the save and
    when the three draws of the save coincided: before the expiry written in
    the record the saved pair is adopted as the ['utf8'] decoding gives it
    back, which for well-formed tokens is the saved pair itself, and neither
    the store nor the entropy source is touched; from the expiry on, the
    expiry included, a refresh is run instead. *)
Theorem startup_reads_saved_record (c saver : Client) (access refresh : string)
    (ms savedAt now : Z) (run : RefreshRun) (st st' : Store) (e e' e2 : Entropy) :
  saveTokens saver access refresh ms savedAt st e = (Some st', e') ->
  tokenEncryption c = tokenEncryption saver ->
  drawAt e 1 = drawAt e 0 -> drawAt e 2 = drawAt e 0 ->
  let read := fun token => utf8Decode (utf8Encode token) in
  initializeTokens now run c st' e2
  = (if now <? savedAt + ms then (setTokens (read access) (read refresh) c, st', e2)
     else refreshToken run c st' e2)
  /\ (isWellFormed access = true -> isWellFormed refresh = true ->
      initializeTokens now run c st' e2
      = if now <? savedAt + ms then (setTokens access refresh c, st', e2)
        else refreshToken run c st' e2).
Proof.
  rewrite saveTokens_record. intros Hsaved Hkey H1 H2 read. subst read. cbv beta.
  apply (f_equal fst) in Hsaved as Hsave. cbn [fst] in Hsave.
  assert (Hstart : initializeTokens now run c st' e2
                   = if now <? savedAt + ms
                     then (setTokens (utf8Decode (utf8Encode access))
                             (utf8Decode (utf8Encode refresh)) c, st', e2)
                     else refreshToken run c st' e2).
  { unfold initializeTokens. rewrite (load_save _ _ _ Hsave).
    cbn [EncryptedTokens.iv EncryptedTokens.accessToken EncryptedTokens.refreshToken
         EncryptedTokens.expiresAt].
    rewrite Hkey, H1, H2, !decrypt_under, !gcm_open_seal.
    cbn [fmap option_fmap option_map]. reflexivity. }
  split; [exact Hstart|]. intros Haccess Hrefresh.
  rewrite Hstart, (utf8_round_trip access Haccess), (utf8_round_trip refresh Hrefresh).
  reflexivity.
Qed.

Lemma toHex_hexChar (buf : Buffer) :
  Forall (fun c => hexChar c = true) (list_ascii_of_string (toHex buf)).
Proof.
  induction buf as [|b buf IH]; [constructor|].
  change (toHex (b :: buf))
    with (String (hexDigit (Byte.to_N b / 16))
            (String (hexDigit (Byte.to_N b mod 16)) (toHex buf))).
  assert (Hdigit : forall n, hexChar (hexDigit n) = true).
  { intros [|p]; [reflexivity|]. do 5 (try destruct p as [p|p|]); reflexivity. }
  cbn [list_ascii_of_string]. repeat constructor; [apply Hdigit..|exact IH].
Qed.

(** X17. What [encrypt] returns: the IV is the draw it consumed, as 32
    hex digits; the other field is the hex ciphertext followed by the 32 hex
    digits of the tag the cipher gave for the text under that IV, so that
    cutting the last 32 characters off separates the two again. Both fields
    hold lower-case hex digits only, and exactly one draw is consumed. *)
Theorem encrypt_format (key : aead_key) (text : string) (e : Entropy) :
  let result := encrypt key text e in
  let sealed := gcm_seal key (drawAt e 0) (utf8Encode text) in
  fromHex (encrypted_iv result.1) = drawAt e 0
  /\ String.length (encrypted_iv result.1) = 32%nat
  /\ encrypted result.1 = toHex sealed.1 +:+ toHex sealed.2
  /\ slice (encrypted result.1) (-32) None = toHex sealed.2
  /\ slice (encrypted result.1) 0 (Some (-32)) = toHex sealed.1
  /\ String.length (encrypted result.1) = (2 * length sealed.1 + 32)%nat
  /\ Forall (fun c => hexChar c = true) (list_ascii_of_string (encrypted_iv result.1))
  /\ Forall (fun c => hexChar c = true) (list_ascii_of_string (encrypted result.1))
  /\ pool result.2 = pool e
  /\ cursor result.2 = S (cursor e).
Proof.
  intros result sealed. subst result. unfold encrypt, randomBytes, encryptWith.
  cbn [fst snd encrypted encrypted_iv pool cursor].
  assert (Hdraw : resize 16 Byte.x00 (pool e (cursor e)) = drawAt e 0).
  { unfold drawAt. rewrite Nat.add_0_r. reflexivity. }
  rewrite Hdraw. fold sealed.
  assert (Htag : String.length (toHex sealed.2) = 32%nat).
  { rewrite length_toHex. unfold sealed. rewrite gcm_tag_length. reflexivity. }
  split; [apply fromHex_toHex|].
  split; [rewrite length_toHex; unfold drawAt; rewrite length_resize; reflexivity|].
  split; [reflexivity|].
  split; [apply slice_last; lia|].
  split; [apply slice_but_last; lia|].
  split; [rewrite length_append, Htag, length_toHex; reflexivity|].
  split; [apply toHex_hexChar|].
  split; [|split; reflexivity].
  assert (Happ : forall s t, list_ascii_of_string (s +:+ t)
                             = list_ascii_of_string s ++ list_ascii_of_string t).
  { intros s t. induction s as [|a s IH]; [reflexivity|].
    rewrite append_cons. cbn [list_ascii_of_string]. rewrite IH. reflexivity. }
  rewrite Happ. apply Forall_app. split; apply toHex_hexChar.
Qed.

End SavedRecord.

(** A save for an hour with draws that are all the same, and start-ups one
    millisecond later and at the expiry. *)
Lemma startup_reads_saved_record_witness :
  let saved := saveTokens Sample.client "new-access" "new-refresh" 3600000 1000000
                 Sample.store Sample2.sameEntropy in
  exists st',
    saved.1 = Some st'
    /\ currentToken (initializeTokens 1000001 Sample.failedRun Sample.client st' saved.2).1.1
       = "new-access"
    /\ initializeTokens 4600000 Sample.failedRun Sample.client st' saved.2
       = refreshToken Sample.failedRun Sample.client st' saved.2.
Proof.
  intros saved. subst saved.
  destruct (saveTokens Sample.client "new-access" "new-refresh" 3600000 1000000
              Sample.store Sample2.sameEntropy) as [[st'|] e'] eqn:Hsaved;
    [|vm_compute in Hsaved; discriminate Hsaved].
  exists st'. cbn [fst snd]. split; [reflexivity|].
  pose proof (fun now =>
    proj2 (startup_reads_saved_record (HC := standIn_correct)
             (HS := fileTokenStorage_correct)
             Sample.client Sample.client "new-access" "new-refresh" 3600000 1000000 now
             Sample.failedRun Sample.store st' Sample2.sameEntropy e' e'
             Hsaved eq_refl eq_refl eq_refl) eq_refl eq_refl) as Hstart.
  split; [rewrite (Hstart 1000001); reflexivity|exact (Hstart 4600000)].
Defined.

(** A token through [encrypt] under the stand-in cipher. *)
Lemma encrypt_format_witness :
  let result := encrypt (newTokenEncryption (C := StandIn.cipher) "secret") "new-access"
                  Sample.entropy in
  String.length (encrypted_iv result.1) = 32%nat
  /\ String.length (encrypted result.1) = 52%nat.
Proof.
  intros result.
  destruct (encrypt_format (HC := standIn_correct)
              (newTokenEncryption (C := StandIn.cipher) "secret") "new-access" Sample.entropy)
    as (_ & Hiv & _ & _ & _ & Hlen & _).
  split; [exact Hiv|exact Hlen].
Defined.

(** ** The chat script: which messages make somebody a VIP *)

Section ChatScript.

Lemma splitOn_cons (sep : ascii) (s : string) :
  exists first others, splitOn sep s = first :: others.
Proof.
  induction s as [|a s (first & others & IH)]; cbn [splitOn]; [eauto|].
  destruct (Ascii.eqb a sep); [eauto|]. rewrite IH. eauto.
Qed.

Lemma join_cons (sep first second : string) (others : list string) :
  join sep (first :: second :: others) = first +:+ sep +:+ join sep (second :: others).
Proof. reflexivity. Qed.

Lemma join_splitOn (sep : ascii) (s : string) :
  join (String sep EmptyString) (splitOn sep s) = s.
Proof.
  induction s as [|a s IH]; [reflexivity|]. cbn [splitOn].
  destruct (splitOn_cons sep s) as (first & others & Hsplit). rewrite Hsplit in IH |- *.
  destruct (Ascii.eqb_spec a sep) as [->|_].
  - rewrite join_cons, IH. reflexivity.
  - destruct others as [|second others].
    + change (join (String sep EmptyString) [first]) with first in IH.
      change (join (String sep EmptyString) [String a first]) with (String a first).
      rewrite IH. reflexivity.
    + rewrite join_cons in IH |- *. rewrite append_cons, IH. reflexivity.
Qed.

Lemma splitOn_no_sep (sep : ascii) (s : string) :
  Forall (fun part => ~ In sep (list_ascii_of_string part)) (splitOn sep s).
Proof.
  induction s as [|a s IH]; cbn [splitOn].
  - repeat constructor. intros [].
  - destruct (Ascii.eqb_spec a sep) as [->|Hne].
    + constructor; [intros []|exact IH].
    + destruct (splitOn sep s) as [|first others]; [repeat constructor; intros [H|[]]; auto|].
      inversion IH as [|? ? Hfirst Hothers]; subst. constructor; [|exact Hothers].
      cbn [list_ascii_of_string In]. intros [H|H]; [auto|exact (Hfirst H)].
Qed.

Lemma splitOn_single (sep : ascii) (s : string) :
  ~ In sep (list_ascii_of_string s) -> splitOn sep s = [s].
Proof.
  induction s as [|a s IH]; intros Hs; [reflexivity|]. cbn [splitOn].
  destruct (Ascii.eqb_spec a sep) as [->|_]; [exfalso; apply Hs; left; reflexivity|].
  rewrite IH; [reflexivity|]. intros Hin. apply Hs. right. exact Hin.
Qed.

Lemma splitOn_append (sep : ascii) (s t : string) :
  ~ In sep (list_ascii_of_string s) ->
  splitOn sep (s +:+ String sep t) = s :: splitOn sep t.
Proof.
  induction s as [|a s IH]; intros Hs.
  - change (EmptyString +:+ String sep t) with (String sep t). cbn [splitOn].
    rewrite Ascii.eqb_refl. reflexivity.
  - rewrite append_cons. cbn [splitOn].
    destruct (Ascii.eqb_spec a sep) as [->|_]; [exfalso; apply Hs; left; reflexivity|].
    rewrite IH; [reflexivity|]. intros Hin. apply Hs. right. exact Hin.
Qed.

(** X18. The chat script calls [vip] exactly for a message of an approved
    user whose first word, up to the first space, is [!vip]; the call is for
    the channel of the script and for the second word, which is what stands
    between the first space and the next one or the end, and which is
    undefined when the message is [!vip] alone. No message makes it call
    more than once. *)
Theorem onPrivmsg_vip_iff (chatUser chatMessage : string) (channel0 : string)
    (memberName : option string) :
  (In (ChatVip channel0 memberName) (onPrivmsg chatUser chatMessage)
   <-> channel0 = channel
       /\ In chatUser approvedUsers
       /\ ((chatMessage = "!vip" /\ memberName = None)
           \/ exists name,
                memberName = Some name
                /\ ~ In " "%char (list_ascii_of_string name)
                /\ (chatMessage = "!vip " +:+ name
                    \/ exists rest, chatMessage = "!vip " +:+ name +:+ " " +:+ rest)))
  /\ (length (onPrivmsg chatUser chatMessage) <= 1)%nat.
Proof.
  unfold onPrivmsg, addVip.
  pose proof (listIncludes_In approvedUsers chatUser) as Happroved.
  pose proof (join_splitOn " " chatMessage) as Hjoin.
  pose proof (splitOn_no_sep " " chatMessage) as Hparts.
  split.
  2:{ destruct (listIncludes approvedUsers chatUser); cbn [negb]; [|cbn; lia].
      destruct (head _) as [name|]; [|cbn; lia].
      destruct (String.eqb name "!vip"); cbn; lia. }
  split.
  - destruct (listIncludes approvedUsers chatUser); cbn [negb]; [|intros []].
    destruct (splitOn " " chatMessage) as [|command others]; [intros []|].
    cbn [head]. destruct (String.eqb_spec command "!vip") as [->|_]; [|intros []].
    intros [[= <- <-]|[]]. split; [reflexivity|]. split; [apply Happroved; reflexivity|].
    destruct others as [|name others]; cbn [lookup list_lookup].
    + left. split; [symmetry; exact Hjoin|reflexivity].
    + right. exists name. split; [reflexivity|].
      split; [exact (Forall_inv (Forall_inv_tail Hparts))|].
      rewrite join_cons in Hjoin.
      destruct others as [|third others].
      * left. rewrite <- Hjoin. reflexivity.
      * right. rewrite join_cons in Hjoin. eexists. rewrite <- Hjoin. reflexivity.
  - intros (-> & Huser & Hmessage). apply Happroved in Huser. rewrite Huser. cbn [negb].
    destruct Hmessage as [[-> ->]|(name & -> & Hname & Hmessage)]; [left; reflexivity|].
    assert (Hcommand : forall t, splitOn " " ("!vip " +:+ t) = "!vip" :: splitOn " " t).
    { intros t. apply (splitOn_append " " "!vip" t).
      cbn. intros [H|[H|[H|[H|[]]]]]; discriminate H. }
    destruct Hmessage as [->|(rest & ->)]; rewrite Hcommand.
    + rewrite (splitOn_single " " name Hname). left. reflexivity.
    + change (" " +:+ rest) with (String " " rest).
      rewrite (splitOn_append " " name rest Hname). left. reflexivity.
Qed.

End ChatScript.
